(** * compare.py: pixel coverage, edge counts and chain lengths

    A shallow embedding of the metric computations of [compare.py]:
    the coverage scan of [analyze_pixels] (the JavaScript evaluated in the
    page), the edge and chain statistics of [get_generated_stats] and the
    coverage mean of [main].

    Numbers.  JavaScript numbers and Python floats are IEEE doubles.  They
    are modelled by [JS.number]: an exact rational, NaN, or an infinity.
    Finite arithmetic is exact, so the binary rounding of a double
    operation (a relative error of 2^-53) is idealised away, and so is the
    sign of zero; the decimal rounding of [toFixed], the NaN of 0/0 and the
    infinities of x/0 are kept, since the properties below are about them.
    Every operation returns its rational in lowest terms, so that results
    can be compared with Leibniz equality. *)

From Stdlib Require Import ZArith QArith Qround Qabs Lia Lqa String Ascii.
From stdpp Require Import base list list_numbers.

Local Open Scope Z_scope.

(** ** JavaScript numbers *)

Module JS.

Inductive number : Type :=
| Fin (q : Q)
| NaN
| Inf (negative : bool).

Definition of_Z (z : Z) : number := Fin (inject_Z z).

Definition Qneg (q : Q) : bool := negb (Qle_bool 0 q).
Definition Qzero (q : Q) : bool := Qeq_bool q 0.

(** [a + b] *)
Definition add (a b : number) : number :=
  match a, b with
  | NaN, _ | _, NaN => NaN
  | Fin x, Fin y => Fin (Qred (x + y))
  | Inf s, Fin _ | Fin _, Inf s => Inf s
  | Inf s, Inf t => if Bool.eqb s t then Inf s else NaN
  end.

(** [a * b] *)
Definition mul (a b : number) : number :=
  match a, b with
  | NaN, _ | _, NaN => NaN
  | Fin x, Fin y => Fin (Qred (x * y))
  | Inf s, Fin y | Fin y, Inf s => if Qzero y then NaN else Inf (xorb s (Qneg y))
  | Inf s, Inf t => Inf (xorb s t)
  end.

(** [a / b]: a division never throws; 0/0 is NaN and x/0 is an infinity. *)
Definition div (a b : number) : number :=
  match a, b with
  | NaN, _ | _, NaN => NaN
  | Fin x, Fin y =>
      if Qzero y then (if Qzero x then NaN else Inf (Qneg x))
      else Fin (Qred (x / y))
  | Inf s, Fin y => Inf (xorb s (Qneg y))
  | Fin _, Inf _ => Fin 0
  | Inf _, Inf _ => NaN
  end.

(** [a > b]: false as soon as one side is NaN. *)
Definition gt (a b : number) : bool :=
  match a, b with
  | NaN, _ | _, NaN => false
  | Fin x, Fin y => negb (Qle_bool x y)
  | Inf s, Fin _ => negb s
  | Fin _, Inf t => t
  | Inf s, Inf t => negb s && t
  end.

(** [Math.max(a, b)] *)
Definition max2 (a b : number) : number :=
  match a, b with
  | NaN, _ | _, NaN => NaN
  | _, _ => if gt a b then a else b
  end.

(** [Math.max(...l)]: the maximum of no argument is -Infinity. *)
Definition max_of (l : list number) : number := foldr max2 (Inf true) l.

(** The finite case of [x.toFixed(d)] read back as a number: the integer
    [n] for which [n / 10^d] is closest to [|x|], the larger one on a tie,
    with the sign of [x]; from 10^21 on [toFixed] prints the number itself. *)
Definition toFixedQ (d : nat) (x : Q) : Q :=
  let a := Qabs x in
  if Qle_bool (inject_Z (10 ^ 21)) a then Qred x
  else
    let n := Qfloor (a * inject_Z (10 ^ Z.of_nat d) + (1 # 2)) in
    let r := Qmake n (Z.to_pos (10 ^ Z.of_nat d)) in
    Qred (if Qneg x then Qopp r else r).

(** [+x.toFixed(d)]: "NaN" and "Infinity" read back as themselves. *)
Definition toFixed (d : nat) (x : number) : number :=
  match x with
  | Fin q => Fin (toFixedQ d q)
  | NaN => NaN
  | Inf s => Inf s
  end.

End JS.

(** ** The coverage scan of [analyze_pixels] (compare.py, lines 71-102) *)

Module Pixels.
Import JS.

Definition qCols : Z := 4.
Definition qRows : Z := 2.

(** The three accumulators of the scan. *)
Record scan_state : Type := {
  whiteTotal : Z;
  quadrants : list (list Z);
  quadrantTotals : list (list Z)
}.

(** [Array.from({length: qRows}, () => Array(qCols).fill(0))] *)
Definition zero_grid : list (list Z) :=
  replicate (Z.to_nat qRows) (replicate (Z.to_nat qCols) 0).

Definition scan_init : scan_state :=
  {| whiteTotal := 0; quadrants := zero_grid; quadrantTotals := zero_grid |}.

(** [data[k]] as an operand of [+]: past the end of the array the read
    gives [undefined], which the addition turns into NaN. *)
Definition channel (data : list Z) (k : Z) : number :=
  if k <? 0 then NaN
  else match data !! Z.to_nat k with
       | Some v => of_Z v
       | None => NaN
       end.

(** [(data[i] + data[i+1] + data[i+2]) / 3] *)
Definition brightness (data : list Z) (i : Z) : number :=
  div (add (add (channel data i) (channel data (i + 1))) (channel data (i + 2)))
      (of_Z 3).

(** [brightness > 128 ? 1 : 0] *)
Definition isWhite (data : list Z) (i : Z) : Z :=
  if gt (brightness data i) (of_Z 128) then 1 else 0.

(** [Math.min(Math.floor(p / n * q), q - 1)], for a loop index [p] below
    the positive dimension [n] and for [q] one of the two grid sizes
    [qRows] and [qCols], the only values the scan passes.  Both are
    powers of two, so multiplying the double [p / n] by them is exact and
    the floor is the floor of the exact quotient; for another [q] the
    double expression can fall one below it. *)
Definition quadrant_index (p n q : Z) : Z :=
  Z.min (Qfloor (inject_Z p / inject_Z n * inject_Z q)) (q - 1).

(** [g[r][c] += v].  The update is written for the indices inside the
    grid; [quadrant_index_range] below shows that the scan produces no
    other (outside it JavaScript would throw on a missing row). *)
Definition cell_add (g : list (list Z)) (r c v : Z) : list (list Z) :=
  alter (alter (fun old => old + v) (Z.to_nat c)) (Z.to_nat r) g.

(** The body of the inner loop, at pixel [(x, y)]. *)
Definition visit (w h : Z) (data : list Z) (y : Z) (s : scan_state) (x : Z)
  : scan_state :=
  let i := (y * w + x) * 4 in
  let white := isWhite data i in
  let qr := quadrant_index y h qRows in
  let qc := quadrant_index x w qCols in
  {| whiteTotal := whiteTotal s + white;
     quadrants := cell_add (quadrants s) qr qc white;
     quadrantTotals := cell_add (quadrantTotals s) qr qc 1 |}.

(** [for (let x = 0; x < w; x++)] *)
Definition scan_row (w h : Z) (data : list Z) (s : scan_state) (y : Z)
  : scan_state :=
  foldl (visit w h data y) s (seqZ 0 w).

(** [for (let y = 0; y < h; y++)] *)
Definition scan (w h : Z) (data : list Z) : scan_state :=
  foldl (scan_row w h data) scan_init (seqZ 0 h).

Definition cell {A} (g : list (list A)) (r c : nat) : option A :=
  match g !! r with
  | Some row => row !! c
  | None => None
  end.

(** [quadrantTotals[ri][ci]] as a divisor; a missing entry is
    [undefined], NaN in arithmetic. *)
Definition total_at (t : list (list Z)) (ri ci : nat) : number :=
  match cell t ri ci with
  | Some n => of_Z n
  | None => NaN
  end.

(** [+(v / quadrantTotals[ri][ci] * 100).toFixed(1)] *)
Definition cell_pct (t : list (list Z)) (ri ci : nat) (v : Z) : number :=
  toFixed 1 (mul (div (of_Z v) (total_at t ri ci)) (of_Z 100)).

(** [quadrants.map((row, ri) => row.map((v, ci) => ...))] *)
Definition quadrantPct (s : scan_state) : list (list number) :=
  imap (fun ri row => imap (fun ci v => cell_pct (quadrantTotals s) ri ci v) row)
       (quadrants s).

Record report : Type := {
  width : Z;
  height : Z;
  totalPixels : Z;
  whitePixels : Z;
  coveragePct : number;
  quadrantCoverage : list (list number)
}.

(** Lines 71-102: the object computed from the canvas size [w] x [h] and
    the image data [data] (four channels per pixel, row-major) once
    [getImageData] has returned them; [Page.analyze] below is the page
    function as a whole, from the loading of the image on. *)
Definition analyze_pixels (w h : Z) (data : list Z) : report :=
  let total := w * h in
  let s := scan w h data in
  {| width := w;
     height := h;
     totalPixels := total;
     whitePixels := whiteTotal s;
     coveragePct := toFixed 2 (mul (div (of_Z (whiteTotal s)) (of_Z total)) (of_Z 100));
     quadrantCoverage := quadrantPct s |}.

End Pixels.

(** ** The page function of [analyze_pixels] as a whole
       (compare.py, lines 57-103) *)

Module Page.

(** What the page function throws: the rejection of the promise when the
    image does not load ([img.onerror = reject], line 61), and the
    "IndexSizeError" exception of [getImageData], which the canvas raises
    for a rectangle whose width or height is zero (line 69). *)
Inductive exception : Type :=
| ImageLoadError
| IndexSizeError.

Inductive completion (A : Type) : Type :=
| Normal (a : A)
| Throw (e : exception).
Arguments Normal {A} a.
Arguments Throw {A} e.

(** A loaded image: its size and its pixels, [pixel x y] being the R, G,
    B and A of column [x] of row [y]. *)
Record Image : Type := {
  img_width : Z;
  img_height : Z;
  pixel : Z -> Z -> Z * Z * Z * Z
}.

Definition channels (c : Z * Z * Z * Z) : list Z :=
  let '(r, g, b, a) := c in [r; g; b; a].

(** [ctx.getImageData(0, 0, sw, sh).data] on the canvas that was given
    the size of the image and on which the image was drawn at (0, 0):
    the four channels of every pixel of the rectangle, row by row; the
    call throws when [sw] or [sh] is zero. *)
Definition getImageData (img : Image) (sw sh : Z) : completion (list Z) :=
  if (sw =? 0) || (sh =? 0) then Throw IndexSizeError
  else Normal (concat ((fun y =>
                 concat ((fun x => channels (pixel img x y)) <$> seqZ 0 sw))
               <$> seqZ 0 sh)).

(** The function evaluated in the page, on the outcome [loaded] of
    loading the data URL: [None] when the image does not decode. *)
Definition analyze (loaded : option Image) : completion Pixels.report :=
  match loaded with
  | None => Throw ImageLoadError
  | Some img =>
      let w := img_width img in
      let h := img_height img in
      match getImageData img w h with
      | Throw e => Throw e
      | Normal data => Normal (Pixels.analyze_pixels w h data)
      end
  end.

End Page.

(** ** Edge and chain statistics of [get_generated_stats]
       (compare.py, lines 119-166) *)

Module Structure.
Import JS.

(** An entry of [grid.dEdges]; only its [type] tag is read. *)
Record DEdge : Type := { type : string }.

(** A panel, as far as the script uses it: the two edge queries and the
    list of diagonal and arc edges. *)
Record Grid : Type := {
  getH : Z -> Z -> bool;
  getV : Z -> Z -> bool;
  dEdges : list DEdge
}.

(** The counters declared before the loop over the panels. *)
Record counters : Type := {
  hCount : Z;
  vCount : Z;
  arcCount : Z;
  diagCount : Z
}.

Definition no_edges : counters :=
  {| hCount := 0; vCount := 0; arcCount := 0; diagCount := 0 |}.

(** [for (let a = 0; a < na; a++) for (let b = 0; b < nb; b++)
       if (present(a, b)) n++] *)
Definition count_present (present : Z -> Z -> bool) (na nb : Z) (n : Z) : Z :=
  foldl (fun n a =>
           foldl (fun n b => if present a b then n + 1 else n) n (seqZ 0 nb))
        n (seqZ 0 na).

(** [e.type === 'arc'] *)
Definition is_arc (e : DEdge) : bool := String.eqb (type e) "arc".

Section Geometry.

(** [ROWS] and [COLS] are globals of the page (index.html); the script
    only reads them. *)
Variables ROWS COLS : Z.

(** The body of [for (const grid of grids)]. *)
Definition count_grid (k : counters) (grid : Grid) : counters :=
  let k1 :=
    {| hCount := count_present (getH grid) ROWS (COLS - 1) (hCount k);
       vCount := count_present (getV grid) (ROWS - 1) COLS (vCount k);
       arcCount := arcCount k;
       diagCount := diagCount k |} in
  foldl (fun k e =>
           if is_arc e
           then {| hCount := hCount k; vCount := vCount k;
                   arcCount := arcCount k + 1; diagCount := diagCount k |}
           else {| hCount := hCount k; vCount := vCount k;
                   arcCount := arcCount k; diagCount := diagCount k + 1 |})
        k1 (dEdges grid).

Definition count_edges (grids : list Grid) : counters :=
  foldl count_grid no_edges grids.

End Geometry.

(** [80 + 68 + 64]: H + V + all possible diags *)
Definition maxEdges : Z := 80 + 68 + 64.

(** A [<path>] element of the parsed SVG: [getAttribute('d')] is [None]
    when the attribute is missing. *)
Record PathElem : Type := { getAttribute_d : option string }.

Definition is_HVLC (a : ascii) : bool :=
  match a with
  | "H"%char | "V"%char | "L"%char | "C"%char => true
  | _ => false
  end.

Fixpoint all_HVLC (d : string) : list ascii :=
  match d with
  | EmptyString => []
  | String a rest => if is_HVLC a then a :: all_HVLC rest else all_HVLC rest
  end.

(** [d.match(/[HVLC]/g)]: the list of matches, or [null] when there is
    none. *)
Definition match_HVLC (d : string) : option (list ascii) :=
  match all_HVLC d with
  | [] => None
  | ms => Some ms
  end.

(** [(d.match(/[HVLC]/g) || []).length], with [d] the attribute or [''] *)
Definition segs (p : PathElem) : Z :=
  let d := match getAttribute_d p with
           | Some (String a rest) => String a rest
           | _ => EmptyString
           end in
  Z.of_nat (length (default [] (match_HVLC d))).

(** The loop [for (const p of paths) chainLengths.push(segs)]. *)
Definition chain_lengths (paths : list PathElem) : list Z :=
  foldl (fun chainLengths p => chainLengths ++ [segs p]) [] paths.

Definition len {A} (l : list A) : Z := Z.of_nat (length l).

(** [chainLengths.reduce((a, b) => a + b, 0)] *)
Definition reduce_add (chainLengths : list Z) : Z :=
  foldl (fun a b => a + b) 0 chainLengths.

(** [chainLengths.length > 0 ? +(sum / chainLengths.length).toFixed(1) : 0] *)
Definition avg_chain (chainLengths : list Z) : number :=
  if 0 <? len chainLengths
  then toFixed 1 (div (of_Z (reduce_add chainLengths)) (of_Z (len chainLengths)))
  else of_Z 0.

(** [chainLengths.length > 0 ? Math.max(...chainLengths) : 0] *)
Definition max_chain (chainLengths : list Z) : number :=
  if 0 <? len chainLengths
  then max_of (of_Z <$> chainLengths)
  else of_Z 0.

(** The returned object, without its [text] and [svg] fields. *)
Record stats : Type := {
  panels : Z;
  hEdges : Z;
  vEdges : Z;
  arcs : Z;
  diags : Z;
  totalEdges : Z;
  edgeDensity : number;
  pathCount : Z;
  chainLengths : list Z;
  avgChain : number;
  maxChain : number
}.

(** What the page computes from the panels [grids] of a text and from the
    [<path>] elements [paths] of their rendering. *)
Definition get_generated_stats (ROWS COLS : Z) (grids : list Grid)
  (paths : list PathElem) : stats :=
  let k := count_edges ROWS COLS grids in
  let chains := chain_lengths paths in
  let total := hCount k + vCount k + arcCount k + diagCount k in
  {| panels := len grids;
     hEdges := hCount k;
     vEdges := vCount k;
     arcs := arcCount k;
     diags := diagCount k;
     totalEdges := total;
     edgeDensity := toFixed 1 (mul (div (of_Z total) (of_Z maxEdges)) (of_Z 100));
     pathCount := len paths;
     chainLengths := chains;
     avgChain := avg_chain chains;
     maxChain := max_chain chains |}.

(** The [<path>] elements of a sequence of "d" strings. *)
Definition paths_of (ds : list string) : list PathElem :=
  (fun d => {| getAttribute_d := Some d |}) <$> ds.

End Structure.

(** ** The coverage means of [main] (compare.py, lines 196 and 240) *)

Module Aggregate.
Import JS.

Inductive exception : Type := ZeroDivisionError.

Inductive outcome (A : Type) : Type :=
| Return (a : A)
| Raise (e : exception).
Arguments Return {A} a.
Arguments Raise {A} e.

(** [sum(xs)], starting from 0 *)
Definition py_sum (xs : list number) : number := foldl add (of_Z 0) xs.

(** [a / n] in Python: a zero divisor raises. *)
Definition truediv (a : number) (n : Z) : outcome number :=
  if n =? 0 then Raise ZeroDivisionError else Return (div a (of_Z n)).

(** Truth value of a list: it is non-empty. *)
Definition truthy {A} (l : list A) : bool :=
  match l with
  | [] => false
  | _ :: _ => true
  end.

(** [sum(s["coveragePct"] for s in ref_stats) / len(ref_stats)
     if ref_stats else 0] *)
Definition avg_ref_coverage (ref_stats : list Pixels.report) : outcome number :=
  if truthy ref_stats
  then truediv (py_sum (Pixels.coveragePct <$> ref_stats))
               (Z.of_nat (length ref_stats))
  else Return (of_Z 0).

(** [sum(gen_coverages) / len(gen_coverages) if gen_coverages else 0] *)
Definition avg_gen_coverage (gen_coverages : list number) : outcome number :=
  if truthy gen_coverages
  then truediv (py_sum gen_coverages) (Z.of_nat (length gen_coverages))
  else Return (of_Z 0).

End Aggregate.

(** ** The comparison summary of [main]
       (compare.py, lines 197-205, 223, 248-250 and 259-266) *)

Module Summary.
Import JS Aggregate.

(** [a - b] *)
Definition sub (a b : number) : number :=
  match a, b with
  | NaN, _ | _, NaN => NaN
  | Fin x, Fin y => Fin (Qred (x - y))
  | Inf s, Fin _ => Inf s
  | Fin _, Inf t => Inf (negb t)
  | Inf s, Inf t => if Bool.eqb s t then NaN else Inf s
  end.

(** ['denser' if diff > 0 else 'sparser'] *)
Definition label (diff : number) : string :=
  if gt diff (of_Z 0) then "denser" else "sparser".

(** [diff = avg_gen_coverage - avg_ref_coverage] and the word printed
    with it. *)
Definition coverage_diff (ref_stats : list Pixels.report)
  (gen_coverages : list number) : outcome (number * string) :=
  match avg_ref_coverage ref_stats with
  | Raise e => Raise e
  | Return avg_ref =>
      match avg_gen_coverage gen_coverages with
      | Raise e => Raise e
      | Return avg_gen =>
          let diff := sub avg_gen avg_ref in Return (diff, label diff)
      end
  end.

(** The integer nearest to [y], the even one on a tie. *)
Definition round_half_even (y : Q) : Z :=
  let f := Qfloor y in
  match Qcompare (y - inject_Z f) (1 # 2) with
  | Lt => f
  | Gt => f + 1
  | Eq => if Z.even f then f else f + 1
  end.

Definition roundQ (d : nat) (x : Q) : Q :=
  Qred (Qmake (round_half_even (x * inject_Z (10 ^ Z.of_nat d)))
              (Z.to_pos (10 ^ Z.of_nat d))).

(** [round(x, d)] on a float; nan and the infinities are returned as
    they are. *)
Definition py_round (d : nat) (x : number) : number :=
  match x with
  | Fin q => Fin (roundQ d q)
  | NaN => NaN
  | Inf s => Inf s
  end.

Inductive error : Type :=
| IndexError
| Arithmetic (e : exception).

(** [l[i]] for an index taken from a [range]: past the end it raises. *)
Definition item {A} (l : list A) (i : nat) : error + A :=
  match l !! i with
  | Some x => inr x
  | None => inl IndexError
  end.

(** [sum(m[r][c] for m in mats)], from the running total [acc] *)
Fixpoint sum_cell (mats : list (list (list number))) (r c : nat)
  (acc : number) : error + number :=
  match mats with
  | [] => inr acc
  | m :: rest =>
      match item m r with
      | inl e => inl e
      | inr row =>
          match item row c with
          | inl e => inl e
          | inr v => sum_cell rest r c (add acc v)
          end
      end
  end.

(** A list comprehension [[f(a) for a in l]] whose element may raise. *)
Fixpoint comprehension {A B} (f : A -> error + B) (l : list A)
  : error + list B :=
  match l with
  | [] => inr []
  | a :: rest =>
      match f a with
      | inl e => inl e
      | inr b =>
          match comprehension f rest with
          | inl e => inl e
          | inr bs => inr (b :: bs)
          end
      end
  end.

(** [round(sum(m[r][c] for m in mats) / len(mats), 1)] *)
Definition mean_cell (mats : list (list (list number))) (r c : nat)
  : error + number :=
  match sum_cell mats r c (of_Z 0) with
  | inl e => inl e
  | inr total =>
      match truediv total (Z.of_nat (length mats)) with
      | Raise e => inl (Arithmetic e)
      | Return mean => inr (py_round 1 mean)
      end
  end.

(** The elementwise mean of the quadrant matrices [mats], over the rows
    and columns of the first one. *)
Definition mean_grid (mats : list (list (list number)))
  : error + list (list number) :=
  match item mats 0 with
  | inl e => inl e
  | inr first =>
      let rows_n := length first in
      match item first 0 with
      | inl e => inl e
      | inr row0 =>
          let cols_n := length row0 in
          comprehension
            (fun r => comprehension (fun c => mean_cell mats r c) (seq 0 cols_n))
            (seq 0 rows_n)
      end
  end.

(** [avg_ref_quadrants]: [None] unless there is a reference report. *)
Definition avg_ref_quadrants (ref_stats : list Pixels.report)
  : error + option (list (list number)) :=
  if truthy ref_stats
  then match mean_grid (Pixels.quadrantCoverage <$> ref_stats) with
       | inl e => inl e
       | inr g => inr (Some g)
       end
  else inr None.

(** [avg_gen_quads], computed when [gen_quads_all] is not empty. *)
Definition avg_gen_quads (gen_quads_all : list (list (list number)))
  : error + option (list (list number)) :=
  if truthy gen_quads_all
  then match mean_grid gen_quads_all with
       | inl e => inl e
       | inr g => inr (Some g)
       end
  else inr None.

Definition underscore (a : ascii) : ascii :=
  if Ascii.eqb a " " then "_"%char else a.

(** [text.replace(' ', '_')] *)
Fixpoint replace_spaces (text : string) : string :=
  match text with
  | EmptyString => EmptyString
  | String a rest => String (underscore a) (replace_spaces rest)
  end.

(** [text.replace(' ', '_')[:20]], the name of the screenshot of a
    generated pattern (between "gen_" and ".png"); the characters of the
    texts are ASCII. *)
Definition png_stem (text : string) : string :=
  substring 0 20 (replace_spaces text).

End Summary.

(** ** Notions used to state the properties *)

Module Props.
Import JS.

Definition sumZ (l : list Z) : Z := foldr Z.add 0 l.

(** Sum of the entries of a grid of counters. *)
Definition grid_sum (g : list (list Z)) : Z := sumZ (sumZ <$> g).

(** A grid of [qRows] rows of [qCols] entries. *)
Definition well_shaped {A} (g : list (list A)) : Prop :=
  length g = Z.to_nat Pixels.qRows /\
  Forall (fun row => length row = Z.to_nat Pixels.qCols) g.

(** The invariant of the scan after [n] pixels. *)
Record scan_inv (n : Z) (s : Pixels.scan_state) : Prop := {
  inv_shape : well_shaped (Pixels.quadrantTotals s);
  inv_cells : Forall2 (Forall2 (fun v t => 0 <= v <= t))
                (Pixels.quadrants s) (Pixels.quadrantTotals s);
  inv_total : grid_sum (Pixels.quadrantTotals s) = n;
  inv_white : grid_sum (Pixels.quadrants s) = Pixels.whiteTotal s
}.

(** The half unit of the [d]-th decimal: 0.05 for one, 0.005 for two. *)
Definition half_ulp (d : nat) : Q := (1 # 2) / inject_Z (10 ^ Z.of_nat d).

(** The percentage of a cell with [v] white pixels out of [t], as
    [cell_pct] computes it once the divisor has been read. *)
Definition pct_of (v t : Z) : number :=
  toFixed 1 (mul (div (of_Z v) (of_Z t)) (of_Z 100)).

(** The pixel-count-weighted sum of a run of cells, [t * p] added up in
    the arithmetic of the reported numbers: a NaN percentage makes the
    sum NaN, whatever its weight. *)
Fixpoint weighted_sum (ts : list Z) (ps : list number) : number :=
  match ts, ps with
  | t :: ts', p :: ps' => add (mul (of_Z t) p) (weighted_sum ts' ps')
  | _, _ => of_Z 0
  end.

(** The pixel-count-weighted average of a grid of percentages. *)
Definition weighted_avg (totals : list (list Z)) (pcts : list (list number))
  : number :=
  div (weighted_sum (concat totals) (concat pcts)) (of_Z (grid_sum totals)).

End Props.

(** ** Further notions *)

Module Notions.
Import JS Pixels.

(** The cell [(r, c)] of a grid of counters exists and holds at least [k]. *)
Definition cell_ge (g : list (list Z)) (r c : nat) (k : Z) : Prop :=
  exists t, cell g r c = Some t /\ k <= t.

(** The verdict of [isWhite] on every pixel of a [w] x [h] buffer, row by
    row. *)
Definition white_map (w h : Z) (data : list Z) : list (list Z) :=
  (fun y => (fun x => isWhite data ((y * w + x) * 4)) <$> seqZ 0 w) <$> seqZ 0 h.

(** Counters added field by field. *)
Definition add_counters (a b : Structure.counters) : Structure.counters :=
  {| Structure.hCount := Structure.hCount a + Structure.hCount b;
     Structure.vCount := Structure.vCount a + Structure.vCount b;
     Structure.arcCount := Structure.arcCount a + Structure.arcCount b;
     Structure.diagCount := Structure.diagCount a + Structure.diagCount b |}.

(** All the diagonal and arc edges of the panels of a text. *)
Definition all_dEdges (grids : list Structure.Grid) : list Structure.DEdge :=
  concat (Structure.dEdges <$> grids).

Definition sumQ (l : list Q) : Q := foldr Qplus 0%Q l.

End Notions.

Import JS Pixels Page Structure Aggregate Summary Props Notions.

(** ** Facts about numbers *)

Section Numbers.

Local Open Scope Q_scope.

Lemma pow10_pos (d : nat) : (0 < 10 ^ Z.of_nat d)%Z.
Proof. apply Z.pow_pos_nonneg; lia. Qed.

Lemma pow10_Q_pos (d : nat) : 0 < inject_Z (10 ^ Z.of_nat d).
Proof. rewrite <- (Zlt_Qlt 0). apply pow10_pos. Qed.

Lemma half_ulp_pos (d : nat) : 0 < half_ulp d.
Proof.
  unfold half_ulp. apply Qlt_shift_div_l; [apply pow10_Q_pos | lra].
Qed.

Lemma Qneg_true (q : Q) : Qneg q = true -> q < 0.
Proof.
  unfold Qneg. intros H. apply negb_true_iff in H.
  destruct (Qlt_le_dec q 0) as [Hlt | Hle]; [exact Hlt |].
  apply Qle_bool_iff in Hle. congruence.
Qed.

Lemma Qneg_false (q : Q) : Qneg q = false -> 0 <= q.
Proof.
  unfold Qneg. intros H. apply negb_false_iff in H. now apply Qle_bool_iff.
Qed.

(** The nearest multiple of [1/p], as computed by [toFixedQ], is within
    half a unit of the rounded number. *)
Lemma nearest_multiple (a p : Q) :
  0 < p ->
  let n := inject_Z (Qfloor (a * p + (1 # 2))) in
  - ((1 # 2) / p) <= n / p - a <= (1 # 2) / p.
Proof.
  intros Hp n.
  assert (Hlo : n <= a * p + (1 # 2)) by apply Qfloor_le.
  assert (Hhi : a * p + (1 # 2) < n + 1).
  { pose proof (Qlt_floor (a * p + (1 # 2))) as H.
    rewrite inject_Z_plus in H. exact H. }
  assert (Hnz : ~ p == 0) by lra.
  assert (E : n / p - a == (n - a * p) / p) by (field; exact Hnz).
  assert (E' : - ((1 # 2) / p) == (- (1 # 2)) / p) by (field; exact Hnz).
  rewrite E, E'. split.
  - apply Qle_shift_div_l; [exact Hp |].
    assert (E1 : - (1 # 2) / p * p == - (1 # 2)) by (field; exact Hnz).
    rewrite E1. lra.
  - apply Qle_shift_div_r; [exact Hp |].
    assert (E1 : (1 # 2) / p * p == 1 # 2) by (field; exact Hnz).
    rewrite E1. lra.
Qed.

Lemma Qmake_pow10 (n : Z) (d : nat) :
  n # Z.to_pos (10 ^ Z.of_nat d) == inject_Z n / inject_Z (10 ^ Z.of_nat d).
Proof.
  rewrite Qmake_Qdiv. rewrite Z2Pos.id by apply pow10_pos. reflexivity.
Qed.

(** [toFixed] moves a number by at most half a unit of its last decimal. *)
Lemma toFixedQ_error (d : nat) (x : Q) :
  Qabs (toFixedQ d x - x) <= half_ulp d.
Proof.
  pose proof (half_ulp_pos d) as Hu.
  unfold toFixedQ.
  destruct (Qle_bool (inject_Z (10 ^ 21)) (Qabs x)).
  - rewrite Qred_correct.
    assert (E : x - x == 0) by ring.
    rewrite E. change (Qabs 0) with 0. lra.
  - rewrite Qred_correct. apply Qabs_Qle_condition.
    destruct (Qneg x) eqn:Hs.
    + apply Qneg_true in Hs.
      rewrite (Qabs_neg x) by lra.
      rewrite Qmake_pow10.
      pose proof (nearest_multiple (- x) _ (pow10_Q_pos d)) as H.
      cbv zeta in H. unfold half_ulp.
      set (u := (1 # 2) / inject_Z (10 ^ Z.of_nat d)) in *.
      set (r := inject_Z _ / _) in *. lra.
    + apply Qneg_false in Hs.
      rewrite (Qabs_pos x) by lra.
      rewrite Qmake_pow10.
      pose proof (nearest_multiple x _ (pow10_Q_pos d)) as H.
      cbv zeta in H. unfold half_ulp.
      set (u := (1 # 2) / inject_Z (10 ^ Z.of_nat d)) in *.
      set (r := inject_Z _ / _) in *. lra.
Qed.

Lemma Qzero_inject_Z (z : Z) : z <> 0%Z -> Qzero (inject_Z z) = false.
Proof.
  intros Hz. unfold Qzero. destruct (Qeq_bool (inject_Z z) 0) eqn:E; [| reflexivity].
  apply Qeq_bool_eq in E. unfold Qeq in E. simpl in E. lia.
Qed.

(** [+(v / t * 100).toFixed(d)] for a divisor other than zero: a finite
    number within half a unit of the exact percentage. *)
Lemma percentage_finite (d : nat) (v t : Z) :
  t <> 0%Z ->
  exists p, toFixed d (mul (div (of_Z v) (of_Z t)) (of_Z 100)) = Fin p /\
            Qabs (p - 100 * inject_Z v / inject_Z t) <= half_ulp d.
Proof.
  intros Ht. unfold of_Z, div. rewrite (Qzero_inject_Z t Ht). cbn [mul toFixed].
  eexists; split; [reflexivity |].
  set (x := Qred (Qred (inject_Z v / inject_Z t) * inject_Z 100)).
  assert (E : x == 100 * inject_Z v / inject_Z t).
  { unfold x. rewrite !Qred_correct. field.
    intros H. unfold Qeq in H. simpl in H. lia. }
  rewrite <- E. apply toFixedQ_error.
Qed.

(** 0/0 is NaN, and stays NaN through [* 100] and [toFixed]. *)
Lemma percentage_of_nothing (d : nat) :
  toFixed d (mul (div (of_Z 0) (of_Z 0)) (of_Z 100)) = NaN.
Proof. reflexivity. Qed.

(** Rounding keeps a number between 0 and an integer bound. *)
Lemma toFixedQ_range (d : nat) (x : Q) (m : Z) :
  0 <= x <= inject_Z m -> 0 <= toFixedQ d x <= inject_Z m.
Proof.
  intros [H0 Hm]. unfold toFixedQ.
  destruct (Qle_bool (inject_Z (10 ^ 21)) (Qabs x)).
  - rewrite Qred_correct. split; assumption.
  - assert (Hs : Qneg x = false).
    { unfold Qneg. apply negb_false_iff. now apply Qle_bool_iff. }
    rewrite Hs, Qred_correct, Qmake_pow10, (Qabs_pos x) by exact H0.
    pose proof (pow10_Q_pos d) as Hp.
    set (P := inject_Z (10 ^ Z.of_nat d)) in *.
    set (n := Qfloor (x * P + (1 # 2))).
    assert (Hxp : 0 <= x * P) by (apply Qmult_le_0_compat; lra).
    assert (Hn0 : (0 <= n)%Z).
    { change 0%Z with (Qfloor 0). apply Qfloor_resp_le. lra. }
    assert (Hmp : x * P <= inject_Z m * P) by (apply Qmult_le_compat_r; lra).
    assert (Hn1 : (n <= m * 10 ^ Z.of_nat d)%Z).
    { apply Z.lt_succ_r. rewrite Zlt_Qlt.
      pose proof (Qfloor_le (x * P + (1 # 2))) as Hfl. fold n in Hfl.
      unfold Z.succ. rewrite inject_Z_plus, inject_Z_mult. fold P.
      change (inject_Z 1) with 1. lra. }
    split.
    + apply Qle_shift_div_l; [exact Hp |].
      rewrite Zle_Qle in Hn0. change (inject_Z 0) with 0 in Hn0. lra.
    + apply Qle_shift_div_r; [exact Hp |].
      rewrite Zle_Qle, inject_Z_mult in Hn1. exact Hn1.
Qed.

End Numbers.

(** ** The invariant of the coverage scan *)

Section Scan.

Lemma sumZ_cons (a : Z) (l : list Z) : sumZ (a :: l) = a + sumZ l.
Proof. reflexivity. Qed.

Lemma grid_sum_cons (row : list Z) (g : list (list Z)) :
  grid_sum (row :: g) = sumZ row + grid_sum g.
Proof. reflexivity. Qed.

Lemma sumZ_alter (f : Z -> Z) (l : list Z) (i : nat) (x : Z) :
  l !! i = Some x -> sumZ (alter f i l) = sumZ l - x + f x.
Proof.
  revert i. induction l as [| a l IH]; intros [| i] H;
    try discriminate H; cbn [alter list_alter].
  - injection H as ->. rewrite !sumZ_cons. lia.
  - rewrite !sumZ_cons, (IH i H). lia.
Qed.

Lemma grid_sum_alter (F : list Z -> list Z) (g : list (list Z)) (r : nat)
  (row : list Z) :
  g !! r = Some row ->
  grid_sum (alter F r g) = grid_sum g - sumZ row + sumZ (F row).
Proof.
  revert r. induction g as [| a g IH]; intros [| r] H;
    try discriminate H; cbn [alter list_alter].
  - injection H as ->. rewrite !grid_sum_cons. lia.
  - rewrite !grid_sum_cons, (IH r H). lia.
Qed.

(** Adding [v] to an existing cell adds [v] to the sum of the grid. *)
Lemma grid_sum_cell_add (g : list (list Z)) (r c v : Z) (row : list Z) (x : Z) :
  g !! Z.to_nat r = Some row -> row !! Z.to_nat c = Some x ->
  grid_sum (cell_add g r c v) = grid_sum g + v.
Proof.
  intros Hr Hc. unfold cell_add.
  rewrite (grid_sum_alter _ _ _ _ Hr), (sumZ_alter _ _ _ _ Hc). lia.
Qed.

(** The clamped index of a loop position lies inside the grid. *)
Lemma quadrant_index_range (p n q : Z) :
  0 <= p -> 0 < n -> 0 < q -> 0 <= quadrant_index p n q < q.
Proof.
  intros Hp Hn Hq. unfold quadrant_index.
  assert (0 <= Qfloor (inject_Z p / inject_Z n * inject_Z q)).
  { change 0 with (Qfloor 0). apply Qfloor_resp_le.
    apply Qmult_le_0_compat.
    - apply Qle_shift_div_l.
      + rewrite <- (Zlt_Qlt 0). exact Hn.
      + rewrite Qmult_0_l. rewrite <- (Zle_Qle 0). exact Hp.
    - rewrite <- (Zle_Qle 0). lia. }
  lia.
Qed.

Lemma well_shaped_lookup {A} (g : list (list A)) (r c : Z) :
  well_shaped g -> 0 <= r < qRows -> 0 <= c < qCols ->
  exists row x, g !! Z.to_nat r = Some row /\ row !! Z.to_nat c = Some x.
Proof.
  intros [Hlen Hrows] Hr Hc.
  destruct (lookup_lt_is_Some_2 g (Z.to_nat r)) as [row Hrow]; [lia |].
  pose proof (Forall_lookup_1 _ _ _ _ Hrows Hrow) as Hl. simpl in Hl.
  destruct (lookup_lt_is_Some_2 row (Z.to_nat c)) as [x Hx]; [lia |].
  eauto.
Qed.

Lemma well_shaped_cell_add (g : list (list Z)) (r c v : Z) :
  well_shaped g -> well_shaped (cell_add g r c v).
Proof.
  intros [Hlen Hrows]. split; unfold cell_add.
  - rewrite length_alter. exact Hlen.
  - apply Forall_alter; [exact Hrows |].
    intros row _ Hl. rewrite length_alter. exact Hl.
Qed.

Lemma well_shaped_Forall2 {A B} (P : A -> B -> Prop) (g : list (list A))
  (k : list (list B)) :
  Forall2 (Forall2 P) g k -> well_shaped k -> well_shaped g.
Proof.
  intros HF [Hlen Hrows]. split.
  - rewrite (Forall2_length _ _ _ HF). exact Hlen.
  - apply Forall_forall. intros row Hin.
    apply list_elem_of_lookup in Hin as [i Hi].
    destruct (Forall2_lookup_l _ _ _ _ _ HF Hi) as (krow & Hk & Hrel).
    rewrite (Forall2_length _ _ _ Hrel).
    exact (Forall_lookup_1 _ _ _ _ Hrows Hk).
Qed.

Lemma isWhite_bit (data : list Z) (i : Z) : 0 <= isWhite data i <= 1.
Proof. unfold isWhite. destruct (gt _ _); lia. Qed.

Lemma scan_init_inv : scan_inv 0 scan_init.
Proof.
  split; simpl.
  - split; [reflexivity | repeat constructor].
  - unfold zero_grid. simpl. repeat (constructor; try lia).
  - reflexivity.
  - reflexivity.
Qed.

(** One pixel: one more in exactly one cell of the totals, and the white
    count of that cell follows the white total. *)
Lemma visit_inv (w h : Z) (data : list Z) (y x n : Z) (s : scan_state) :
  0 <= x < w -> 0 <= y < h ->
  scan_inv n s -> scan_inv (n + 1) (visit w h data y s x).
Proof.
  intros Hx Hy [Hshape Hcells Htot Hwhite].
  pose proof (quadrant_index_range y h qRows ltac:(lia) ltac:(lia) eq_refl) as Hr.
  pose proof (quadrant_index_range x w qCols ltac:(lia) ltac:(lia) eq_refl) as Hc.
  pose proof (isWhite_bit data ((y * w + x) * 4)) as Hb.
  set (qr := quadrant_index y h qRows) in *.
  set (qc := quadrant_index x w qCols) in *.
  destruct (well_shaped_lookup _ qr qc Hshape Hr Hc) as (trow & t & Htr & Htc).
  destruct (well_shaped_lookup _ qr qc
              (well_shaped_Forall2 _ _ _ Hcells Hshape) Hr Hc)
    as (vrow & v & Hvr & Hvc).
  split; cbn [visit whiteTotal quadrants quadrantTotals]; fold qr qc.
  - apply well_shaped_cell_add, Hshape.
  - unfold cell_add. apply Forall2_alter; [exact Hcells |].
    intros row row' _ _ Hrow. apply Forall2_alter; [exact Hrow |].
    intros a b _ _ Hab. lia.
  - rewrite (grid_sum_cell_add _ _ _ _ _ _ Htr Htc). lia.
  - rewrite (grid_sum_cell_add _ _ _ _ _ _ Hvr Hvc). lia.
Qed.

Lemma scan_row_inv (w h : Z) (data : list Z) (y n : Z) (s : scan_state) :
  0 <= y < h ->
  scan_inv n s -> scan_inv (n + Z.max 0 w) (scan_row w h data s y).
Proof.
  intros Hy. unfold scan_row.
  assert (Hall : Forall (fun x => 0 <= x < w) (seqZ 0 w)).
  { apply Forall_seqZ. intros x Hx. lia. }
  replace (Z.max 0 w) with (Z.of_nat (length (seqZ 0 w)))
    by (rewrite length_seqZ; lia).
  revert n s. induction Hall as [| x l Hx _ IH]; intros n s Hs; simpl.
  - replace (n + Z.of_nat 0) with n by lia. exact Hs.
  - replace (n + Z.of_nat (S (length l))) with (n + 1 + Z.of_nat (length l))
      by lia.
    apply IH. apply visit_inv; assumption.
Qed.

(** After the scan the invariant holds for all [w * h] pixels. *)
Lemma scan_inv_all (w h : Z) (data : list Z) :
  scan_inv (Z.max 0 h * Z.max 0 w) (scan w h data).
Proof.
  unfold scan.
  assert (Hall : Forall (fun y => 0 <= y < h) (seqZ 0 h)).
  { apply Forall_seqZ. intros y Hy. lia. }
  replace (Z.max 0 h) with (Z.of_nat (length (seqZ 0 h)))
    by (rewrite length_seqZ; lia).
  assert (Hgen : forall n s, scan_inv n s ->
            scan_inv (n + Z.of_nat (length (seqZ 0 h)) * Z.max 0 w)
                     (foldl (scan_row w h data) s (seqZ 0 h))).
  { induction Hall as [| y l Hy _ IH]; intros n s Hs; simpl.
    - replace (n + Z.of_nat 0 * Z.max 0 w) with n by lia. exact Hs.
    - replace (n + Z.of_nat (S (length l)) * Z.max 0 w)
        with (n + Z.max 0 w + Z.of_nat (length l) * Z.max 0 w) by lia.
      apply IH. apply scan_row_inv; assumption. }
  exact (Hgen 0 scan_init scan_init_inv).
Qed.

End Scan.

(** ** Properties of the coverage report *)

Section Coverage.

Lemma cell_quadrantPct (s : scan_state) (r c : nat) :
  cell (quadrantPct s) r c =
  match cell (quadrants s) r c with
  | Some v => Some (cell_pct (quadrantTotals s) r c v)
  | None => None
  end.
Proof.
  unfold cell, quadrantPct. rewrite list_lookup_imap.
  destruct (quadrants s !! r) as [row |]; simpl; [| reflexivity].
  rewrite list_lookup_imap. destruct (row !! c); reflexivity.
Qed.

(** Cells of the two counter grids at the same place. *)
Lemma scan_cells (n : Z) (s : scan_state) (r c : nat) (t : Z) :
  scan_inv n s -> cell (quadrantTotals s) r c = Some t ->
  exists v, cell (quadrants s) r c = Some v /\ 0 <= v <= t.
Proof.
  intros [_ Hcells _ _]. unfold cell.
  destruct (quadrantTotals s !! r) as [trow |] eqn:Htr; [| discriminate].
  intros Htc.
  destruct (Forall2_lookup_r _ _ _ _ _ Hcells Htr) as (vrow & Hvr & Hrow).
  destruct (Forall2_lookup_r _ _ _ _ _ Hrow Htc) as (v & Hvc & Hv).
  rewrite Hvr. eauto.
Qed.

(** C4: for a buffer of positive width and height, the clamped quadrant
    indices of every pixel lie inside the [qRows] x [qCols] grid, so each
    pixel is added to exactly one cell of [quadrantTotals], and the cell
    totals add up to [totalPixels = width * height]. *)
Theorem quadrant_totals_partition (w h : Z) (data : list Z) :
  0 < w -> 0 < h ->
  well_shaped (quadrantTotals (scan w h data)) /\
  grid_sum (quadrantTotals (scan w h data))
    = totalPixels (analyze_pixels w h data) /\
  totalPixels (analyze_pixels w h data) = w * h /\
  (forall x y, 0 <= x < w -> 0 <= y < h ->
     0 <= quadrant_index y h qRows < qRows /\
     0 <= quadrant_index x w qCols < qCols).
Proof.
  intros Hw Hh. pose proof (scan_inv_all w h data) as [Hshape _ Htot _].
  split; [exact Hshape |]. split; [| split].
  - rewrite Htot. simpl. lia.
  - reflexivity.
  - intros x y Hx Hy. split; apply quadrant_index_range; lia || reflexivity.
Qed.

Lemma quadrant_totals_partition_witness :
  0 < 7 /\ 0 < 5 /\
  grid_sum (quadrantTotals (scan 7 5 [])) = totalPixels (analyze_pixels 7 5 []).
Proof.
  split; [lia |]. split; [lia |].
  apply (quadrant_totals_partition 7 5 []); lia.
Defined.

(** C8 (as the code has it): a quadrant cell that received no pixel is
    reported as NaN, the value of the unguarded 0/0; no fault is raised. *)
Theorem empty_cell_reported_NaN (w h : Z) (data : list Z) (r c : nat) :
  cell (quadrantTotals (scan w h data)) r c = Some 0 ->
  cell (quadrantCoverage (analyze_pixels w h data)) r c = Some NaN.
Proof.
  intros Ht. cbn [analyze_pixels quadrantCoverage].
  destruct (scan_cells _ _ r c 0 (scan_inv_all w h data) Ht) as (v & Hv & Hv0).
  rewrite cell_quadrantPct, Hv. f_equal.
  unfold cell_pct, total_at. rewrite Ht.
  replace v with 0 by lia. apply percentage_of_nothing.
Qed.

Lemma empty_cell_reported_NaN_witness :
  cell (quadrantTotals (scan 1 1 [255; 255; 255; 255])) 0 1 = Some 0 /\
  cell (quadrantCoverage (analyze_pixels 1 1 [255; 255; 255; 255])) 0 1
    = Some NaN.
Proof.
  split; [reflexivity |].
  apply (empty_cell_reported_NaN 1 1 [255; 255; 255; 255] 0 1). reflexivity.
Defined.

(** C8, as stated, fails on a 1 x 1 buffer: the cell of row 0, column 1
    receives no pixel and its percentage is not 0. *)
Lemma empty_cell_not_zero :
  1 < qCols /\
  cell (quadrantTotals (scan 1 1 [255; 255; 255; 255])) 0 1 = Some 0 /\
  cell (quadrantCoverage (analyze_pixels 1 1 [255; 255; 255; 255])) 0 1
    <> Some (of_Z 0).
Proof.
  split; [reflexivity |]. split; [reflexivity |]. vm_compute. discriminate.
Qed.

(** The mean of the three colour channels. *)
Lemma brightness_mean (data : list Z) (i r g b : Z) :
  0 <= i ->
  data !! Z.to_nat i = Some r ->
  data !! Z.to_nat (i + 1) = Some g ->
  data !! Z.to_nat (i + 2) = Some b ->
  exists m, brightness data i = Fin m /\
            (m == (inject_Z r + inject_Z g + inject_Z b) / 3)%Q.
Proof.
  intros Hi Hr Hg Hb. unfold brightness, channel.
  destruct (Z.ltb_spec i 0); [lia |].
  destruct (Z.ltb_spec (i + 1) 0); [lia |].
  destruct (Z.ltb_spec (i + 2) 0); [lia |].
  rewrite Hr, Hg, Hb. unfold of_Z. cbn [add].
  unfold div. rewrite (Qzero_inject_Z 3) by lia.
  eexists; split; [reflexivity |].
  rewrite !Qred_correct. reflexivity.
Qed.

(** C5: the pixel at [(x, y)], whose channels are [r], [g], [b] and [a],
    is counted as white exactly when the mean of [r], [g] and [b] is
    strictly above 128; at a mean of exactly 128 it is not, and the alpha
    channel plays no part. *)
Theorem white_iff_mean_above_128 (w h : Z) (data : list Z) (s : scan_state)
  (x y r g b : Z) :
  0 <= (y * w + x) * 4 ->
  data !! Z.to_nat ((y * w + x) * 4) = Some r ->
  data !! Z.to_nat ((y * w + x) * 4 + 1) = Some g ->
  data !! Z.to_nat ((y * w + x) * 4 + 2) = Some b ->
  (isWhite data ((y * w + x) * 4) = 1 <->
     (128 < (inject_Z r + inject_Z g + inject_Z b) / 3)%Q) /\
  (isWhite data ((y * w + x) * 4) = 0 <->
     ((inject_Z r + inject_Z g + inject_Z b) / 3 <= 128)%Q) /\
  (((inject_Z r + inject_Z g + inject_Z b) / 3 == 128)%Q ->
     isWhite data ((y * w + x) * 4) = 0) /\
  whiteTotal (visit w h data y s x)
    = whiteTotal s + isWhite data ((y * w + x) * 4) /\
  (forall a, isWhite (<[Z.to_nat ((y * w + x) * 4 + 3) := a]> data)
                     ((y * w + x) * 4)
             = isWhite data ((y * w + x) * 4)).
Proof.
  set (i := (y * w + x) * 4).
  set (mean := ((inject_Z r + inject_Z g + inject_Z b) / 3)%Q).
  intros Hi Hr Hg Hb.
  destruct (brightness_mean data i r g b Hi Hr Hg Hb) as (m & Hm & Em).
  fold mean in Em.
  assert (Hw : isWhite data i = if Qle_bool m (inject_Z 128) then 0 else 1).
  { unfold isWhite. rewrite Hm. unfold of_Z. cbn [gt].
    destruct (Qle_bool m (inject_Z 128)); reflexivity. }
  assert (Hcases : (isWhite data i = 1 /\ (128 < mean)%Q) \/
                   (isWhite data i = 0 /\ (mean <= 128)%Q)).
  { rewrite Hw. destruct (Qle_bool m (inject_Z 128)) eqn:E.
    - right. split; [reflexivity |]. apply Qle_bool_iff in E.
      rewrite <- Em. exact E.
    - left. split; [reflexivity |]. apply Qnot_le_lt. intros Hle.
      rewrite <- Em in Hle. apply Qle_bool_iff in Hle.
      change (inject_Z 128) with 128%Q in E. congruence. }
  split; [| split; [| split; [| split]]].
  - split; intros H; destruct Hcases as [[H1 H2] | [H1 H2]];
      try assumption; try lia; lra.
  - split; intros H; destruct Hcases as [[H1 H2] | [H1 H2]];
      try assumption; try lia; lra.
  - intros H. destruct Hcases as [[H1 H2] | [H1 H2]]; [lra | assumption].
  - reflexivity.
  - intros a. unfold isWhite, brightness, channel.
    rewrite !list_lookup_insert_ne by lia. reflexivity.
Qed.

Lemma white_iff_mean_above_128_witness :
  0 <= (0 * 1 + 0) * 4 /\
  [128; 128; 128; 255] !! Z.to_nat ((0 * 1 + 0) * 4) = Some 128 /\
  [128; 128; 128; 255] !! Z.to_nat ((0 * 1 + 0) * 4 + 1) = Some 128 /\
  [128; 128; 128; 255] !! Z.to_nat ((0 * 1 + 0) * 4 + 2) = Some 128 /\
  isWhite [128; 128; 128; 255] ((0 * 1 + 0) * 4) = 0.
Proof.
  assert (H0 : 0 <= (0 * 1 + 0) * 4) by lia.
  repeat (split; [first [exact H0 | reflexivity] |]).
  destruct (white_iff_mean_above_128 1 1 [128; 128; 128; 255] scan_init
              0 0 128 128 128 H0 eq_refl eq_refl eq_refl)
    as (_ & _ & Htie & _).
  apply Htie. reflexivity.
Defined.

(** The reported grid, cell by cell. *)
Lemma quadrantPct_zip (n : Z) (s : scan_state) :
  scan_inv n s ->
  quadrantPct s = zip_with (zip_with pct_of) (quadrants s) (quadrantTotals s).
Proof.
  intros [_ Hcells _ _]. unfold quadrantPct. apply list_eq. intros r.
  rewrite list_lookup_imap, lookup_zip_with.
  destruct (quadrants s !! r) as [vrow |] eqn:Hvr; [| reflexivity].
  destruct (Forall2_lookup_l _ _ _ _ _ Hcells Hvr) as (trow & Htr & Hrow).
  rewrite Htr. simpl. f_equal. apply list_eq. intros c.
  rewrite list_lookup_imap, lookup_zip_with.
  destruct (vrow !! c) as [v |] eqn:Hvc; [| reflexivity].
  destruct (Forall2_lookup_l _ _ _ _ _ Hrow Hvc) as (t & Htc & _).
  rewrite Htc. simpl. f_equal.
  unfold cell_pct, total_at, cell. rewrite Htr, Htc. reflexivity.
Qed.

Local Open Scope Q_scope.

Lemma half_ulp_1 : half_ulp 1 == 1 # 20.
Proof. reflexivity. Qed.

Lemma half_ulp_2 : half_ulp 2 == 1 # 200.
Proof. reflexivity. Qed.

Lemma sumZ_app (l k : list Z) : sumZ (l ++ k) = (sumZ l + sumZ k)%Z.
Proof.
  induction l as [| a l IH]; [reflexivity |].
  change ((a :: l) ++ k) with (a :: (l ++ k)). rewrite !sumZ_cons, IH. lia.
Qed.

Lemma grid_sum_concat (g : list (list Z)) : grid_sum g = sumZ (concat g).
Proof.
  induction g as [| row g IH]; [reflexivity |].
  cbn [concat]. rewrite grid_sum_cons, sumZ_app, IH. reflexivity.
Qed.

End Coverage.

(** ** Properties of the edge counts *)

Section Edges.

Lemma count_inner_bounds (present : Z -> bool) (l : list Z) (n : Z) :
  n <= foldl (fun n b => if present b then n + 1 else n) n l
    <= n + Z.of_nat (length l).
Proof.
  revert n. induction l as [| b l IH]; intros n; simpl; [lia |].
  destruct (present b).
  - specialize (IH (n + 1)). lia.
  - specialize (IH n). lia.
Qed.

(** A double loop over [na] x [nb] places counts at most that many. *)
Lemma count_present_bounds (present : Z -> Z -> bool) (na nb n : Z) :
  n <= count_present present na nb n <= n + Z.max 0 na * Z.max 0 nb.
Proof.
  unfold count_present.
  replace (Z.max 0 na) with (Z.of_nat (length (seqZ 0 na)))
    by (rewrite length_seqZ; lia).
  revert n. induction (seqZ 0 na) as [| a l IH]; intros n; simpl length.
  - simpl. lia.
  - cbn [foldl].
    pose proof (count_inner_bounds (present a) (seqZ 0 nb) n) as Hin.
    rewrite length_seqZ in Hin.
    specialize (IH (foldl (fun n b => if present a b then n + 1 else n)
                          n (seqZ 0 nb))).
    nia.
Qed.

(** The loop over [dEdges] leaves the H and V counters alone and adds one
    to either the arc or the diagonal counter per entry. *)
Lemma count_dEdges (es : list DEdge) (k : counters) :
  let k' := foldl (fun k e =>
              if is_arc e
              then {| hCount := hCount k; vCount := vCount k;
                      arcCount := arcCount k + 1; diagCount := diagCount k |}
              else {| hCount := hCount k; vCount := vCount k;
                      arcCount := arcCount k; diagCount := diagCount k + 1 |})
              k es in
  hCount k' = hCount k /\ vCount k' = vCount k /\
  arcCount k <= arcCount k' /\ diagCount k <= diagCount k' /\
  arcCount k' + diagCount k' = arcCount k + diagCount k + Z.of_nat (length es).
Proof.
  revert k. induction es as [| e es IH]; intros k; simpl.
  - repeat split; lia.
  - destruct (is_arc e);
      match goal with |- context [foldl _ ?k0 es] => specialize (IH k0) end;
      simpl in IH; destruct IH as (H1 & H2 & H3 & H4 & H5);
      rewrite H1, H2; repeat split; lia.
Qed.

(** What one panel adds to the counters. *)
Lemma count_grid_bounds (ROWS COLS : Z) (k : counters) (grid : Grid) :
  let k' := count_grid ROWS COLS k grid in
  hCount k <= hCount k' <= hCount k + Z.max 0 ROWS * Z.max 0 (COLS - 1) /\
  vCount k <= vCount k' <= vCount k + Z.max 0 (ROWS - 1) * Z.max 0 COLS /\
  arcCount k <= arcCount k' /\ diagCount k <= diagCount k' /\
  arcCount k' + diagCount k'
    = arcCount k + diagCount k + Z.of_nat (length (dEdges grid)).
Proof.
  unfold count_grid.
  match goal with |- context [foldl _ ?k0 (dEdges grid)] =>
    pose proof (count_dEdges (dEdges grid) k0) as H end.
  cbv zeta in *. simpl in H. destruct H as (H1 & H2 & H3 & H4 & H5).
  rewrite H1, H2.
  pose proof (count_present_bounds (getH grid) ROWS (COLS - 1) (hCount k)).
  pose proof (count_present_bounds (getV grid) (ROWS - 1) COLS (vCount k)).
  repeat split; lia.
Qed.

(** C6 (as the code has it): for a single panel of the 80 + 68 grid whose
    [dEdges] list fills at most the 64 diagonal slots, [totalEdges] is at
    most [maxEdges] = 212 and [edgeDensity] lies between 0 and 100. *)
Theorem single_panel_edges_bounded (ROWS COLS : Z) (grids : list Grid)
  (paths : list PathElem) :
  0 <= ROWS -> 0 <= COLS ->
  ROWS * (COLS - 1) <= 80 -> (ROWS - 1) * COLS <= 68 ->
  (length grids <= 1)%nat ->
  Forall (fun g => (length (dEdges g) <= 64)%nat) grids ->
  0 <= totalEdges (get_generated_stats ROWS COLS grids paths) <= maxEdges /\
  exists d, edgeDensity (get_generated_stats ROWS COLS grids paths) = Fin d /\
            (0 <= d <= 100)%Q.
Proof.
  intros HR HC HH HV Hlen Hd.
  assert (Htot : 0 <= totalEdges (get_generated_stats ROWS COLS grids paths)
                   <= maxEdges).
  { cbn [get_generated_stats totalEdges]. unfold count_edges, maxEdges.
    destruct grids as [| g [| g' grids]]; simpl in Hlen; [| | lia].
    - simpl. lia.
    - cbn [foldl]. apply Forall_cons in Hd as [Hg _].
      pose proof (count_grid_bounds ROWS COLS no_edges g) as Hb.
      cbv zeta in Hb. simpl in Hb.
      destruct Hb as (H1 & H2 & H3 & H4 & H5). nia. }
  split; [exact Htot |].
  cbn [get_generated_stats totalEdges edgeDensity] in *.
  set (total := hCount _ + vCount _ + arcCount _ + diagCount _) in *.
  unfold of_Z, div. rewrite (Qzero_inject_Z maxEdges) by (unfold maxEdges; lia).
  cbn [mul toFixed]. eexists; split; [reflexivity |].
  apply (toFixedQ_range 1 _ 100). rewrite !Qred_correct.
  destruct Htot as [H0 H1]. rewrite Zle_Qle in H0, H1.
  change (inject_Z maxEdges) with 212%Q in *.
  change (inject_Z 0) with 0%Q in H0. change (inject_Z 100) with 100%Q.
  set (T := inject_Z total) in *. split.
  - assert (E : (T / 212 * 100 == T * (100 # 212))%Q) by field. rewrite E. lra.
  - assert (E : (T / 212 * 100 == T * (100 # 212))%Q) by field. rewrite E. lra.
Qed.

Lemma single_panel_edges_bounded_witness :
  0 <= 5 /\ 0 <= 17 /\ 5 * (17 - 1) <= 80 /\ (5 - 1) * 17 <= 68 /\
  totalEdges (get_generated_stats 5 17
    [ {| getH := fun _ _ => true; getV := fun _ _ => true;
         dEdges := replicate 64 {| type := "arc" |} |} ] []) <= maxEdges.
Proof.
  repeat (split; [lia |]).
  apply (single_panel_edges_bounded 5 17); try lia.
  - simpl. lia.
  - constructor; [| constructor]. simpl. lia.
Defined.

(** C6, as stated, fails: the counters run over all the panels of a text
    while [maxEdges] is the capacity of one, so two fully drawn panels
    give 296 edges and a density of 139.6; and one panel with 213 entries
    in [dEdges] gives 213 edges. *)
Lemma two_panels_exceed_maxEdges :
  let full := {| getH := fun _ _ => true; getV := fun _ _ => true;
                 dEdges := [] |} in
  let crowded := {| getH := fun _ _ => false; getV := fun _ _ => false;
                    dEdges := replicate 213 {| type := "arc" |} |} in
  totalEdges (get_generated_stats 5 17 [full; full] []) = 296 /\
  ~ totalEdges (get_generated_stats 5 17 [full; full] []) <= maxEdges /\
  edgeDensity (get_generated_stats 5 17 [full; full] []) = Fin (698 # 5) /\
  totalEdges (get_generated_stats 5 17 [crowded] []) = 213 /\
  ~ totalEdges (get_generated_stats 5 17 [crowded] []) <= maxEdges.
Proof.
  cbv zeta. split; [vm_compute; reflexivity |].
  split; [vm_compute; intros H; apply H; reflexivity |].
  split; [vm_compute; reflexivity |].
  split; [vm_compute; reflexivity |].
  vm_compute; intros H; apply H; reflexivity.
Qed.

End Edges.

(** ** Properties of the chain lengths *)

Section Chains.

Lemma chain_lengths_fmap (paths : list PathElem) :
  chain_lengths paths = segs <$> paths.
Proof.
  unfold chain_lengths.
  assert (H : forall acc, foldl (fun cl p => cl ++ [segs p]) acc paths
                          = acc ++ (segs <$> paths)).
  { induction paths as [| p paths IH]; intros acc; simpl.
    - rewrite app_nil_r. reflexivity.
    - rewrite IH, <- app_assoc. reflexivity. }
  apply (H []).
Qed.

Lemma reduce_add_sumZ (l : list Z) : reduce_add l = sumZ l.
Proof.
  unfold reduce_add.
  assert (H : forall acc, foldl (fun a b => a + b) acc l = acc + sumZ l).
  { induction l as [| b l IH]; intros acc; cbn [foldl].
    - unfold sumZ; simpl. lia.
    - rewrite IH, sumZ_cons. lia. }
  apply (H 0).
Qed.

(** C9: [avgChain] times the number of chains is within 0.05 per chain of
    the sum of the chain lengths ([avgChain] is the mean rounded to one
    decimal); for the empty sequence both [avgChain] and [maxChain] are 0,
    the guard on the length keeping the division from 0/0. *)
Theorem avg_chain_times_count (chains : list Z) :
  (exists a, avg_chain chains = Fin a /\
     (Qabs (a * inject_Z (len chains) - inject_Z (sumZ chains))
        <= inject_Z (len chains) * (1 # 20))%Q) /\
  avg_chain [] = of_Z 0 /\ max_chain [] = of_Z 0.
Proof.
  split; [| split; reflexivity].
  unfold avg_chain. destruct (Z.ltb_spec 0 (len chains)) as [Hn | Hn].
  - rewrite reduce_add_sumZ. unfold of_Z, div.
    rewrite (Qzero_inject_Z (len chains)) by lia. cbn [toFixed].
    eexists; split; [reflexivity |].
    set (S := inject_Z (sumZ chains)). set (N := inject_Z (len chains)).
    assert (HN : (0 < N)%Q) by (unfold N; rewrite <- (Zlt_Qlt 0); exact Hn).
    pose proof (toFixedQ_error 1 (Qred (S / N))) as Herr.
    rewrite half_ulp_1 in Herr. apply Qabs_Qle_condition in Herr.
    pose proof (Qred_correct (S / N)) as Er.
    set (r := Qred (S / N)) in *. set (a := toFixedQ 1 r) in *.
    assert (E : (a * N - S == N * (a - S / N))%Q) by (field; lra).
    apply Qabs_Qle_condition. rewrite E. destruct Herr as [Hlo Hhi]. split.
    + assert (E' : (- (N * (1 # 20)) == N * - (1 # 20))%Q) by ring.
      rewrite E'. apply Qmult_le_l; [exact HN |].
      set (m := (S / N)%Q) in *. lra.
    + apply Qmult_le_l; [exact HN |]. set (m := (S / N)%Q) in *. lra.
  - assert (Hl : chains = []).
    { destruct chains; [reflexivity |]. unfold len in Hn. simpl in Hn. lia. }
    subst chains. exists 0%Q. split; [reflexivity |]. vm_compute. discriminate.
Qed.

(** C10: the reported [pathCount] is the length of the reported
    [chainLengths]; each [<path>] element contributes one entry, the
    number of H, V, L and C letters of its "d" attribute, which is 0 when
    the attribute is missing or empty. *)
Theorem path_count_is_chain_count (ROWS COLS : Z) (grids : list Grid)
  (paths : list PathElem) :
  pathCount (get_generated_stats ROWS COLS grids paths)
    = len (chainLengths (get_generated_stats ROWS COLS grids paths)) /\
  chainLengths (get_generated_stats ROWS COLS grids paths) = segs <$> paths /\
  segs {| getAttribute_d := None |} = 0 /\
  segs {| getAttribute_d := Some EmptyString |} = 0 /\
  (forall d, segs {| getAttribute_d := Some d |}
             = Z.of_nat (length (all_HVLC d))).
Proof.
  cbn [get_generated_stats pathCount chainLengths].
  rewrite chain_lengths_fmap. unfold len. rewrite length_fmap.
  repeat split.
  intros d. unfold segs, match_HVLC. cbn [getAttribute_d].
  destruct d as [| a rest]; [reflexivity |].
  destruct (all_HVLC (String a rest)); reflexivity.
Qed.

(** C1 (as the code has it): every path contributes its number of
    segment letters to [chainLengths], a 0 when it has none; for the two
    paths "M0 0H10V10L5 5" and "M0 0" the chain lengths are [3; 0],
    [avgChain] is 1.5 and [maxChain] is 3. *)
Theorem zero_segment_path_is_recorded (ROWS COLS : Z) (grids : list Grid) :
  (forall ds1 d ds2,
     chain_lengths (paths_of (ds1 ++ d :: ds2))
     = chain_lengths (paths_of ds1)
         ++ Z.of_nat (length (all_HVLC d)) :: chain_lengths (paths_of ds2)) /\
  chainLengths (get_generated_stats ROWS COLS grids
                  (paths_of ["M0 0H10V10L5 5"; "M0 0"]%string)) = [3; 0] /\
  avgChain (get_generated_stats ROWS COLS grids
              (paths_of ["M0 0H10V10L5 5"; "M0 0"]%string)) = Fin (3 # 2) /\
  maxChain (get_generated_stats ROWS COLS grids
              (paths_of ["M0 0H10V10L5 5"; "M0 0"]%string)) = of_Z 3.
Proof.
  split; [| repeat split].
  intros ds1 d ds2. rewrite !chain_lengths_fmap. unfold paths_of.
  rewrite fmap_app, !fmap_cons, fmap_app. f_equal. cbn [fmap list_fmap]. f_equal.
  unfold segs, match_HVLC. cbn [getAttribute_d].
  destruct d as [| a rest]; [reflexivity |].
  destruct (all_HVLC (String a rest)); reflexivity.
Qed.

(** C1, as stated, fails: the path without segment letters is kept, so
    the chain lengths are not [3] and [avgChain] is not 3. *)
Lemma zero_segment_path_not_excluded :
  chainLengths (get_generated_stats 5 17 []
                  (paths_of ["M0 0H10V10L5 5"; "M0 0"]%string)) <> [3] /\
  avgChain (get_generated_stats 5 17 []
              (paths_of ["M0 0H10V10L5 5"; "M0 0"]%string)) <> of_Z 3.
Proof. split; vm_compute; discriminate. Qed.

End Chains.

(** ** Properties of the coverage means *)

Section Means.

(** C2 (as the code has it): the mean coverage of an empty set of reports
    is 0; the guard on the list keeps the division from raising, so the
    mean is returned for every list. *)
Theorem empty_mean_is_zero :
  avg_ref_coverage [] = Return (of_Z 0) /\
  avg_gen_coverage [] = Return (of_Z 0) /\
  (forall ref_stats, exists v, avg_ref_coverage ref_stats = Return v) /\
  (forall gen_coverages, exists v, avg_gen_coverage gen_coverages = Return v).
Proof.
  split; [reflexivity |]. split; [reflexivity |]. split.
  - intros [| r l]; [eexists; reflexivity |].
    unfold avg_ref_coverage, truediv. cbn [truthy].
    destruct (Z.eqb_spec (Z.of_nat (length (r :: l))) 0) as [H | _].
    + simpl in H. lia.
    + eexists; reflexivity.
  - intros [| r l]; [eexists; reflexivity |].
    unfold avg_gen_coverage, truediv. cbn [truthy].
    destruct (Z.eqb_spec (Z.of_nat (length (r :: l))) 0) as [H | _].
    + simpl in H. lia.
    + eexists; reflexivity.
Qed.

(** C2, as stated, fails: on the empty list neither mean raises. *)
Lemma empty_mean_not_raised :
  ~ (exists e, avg_ref_coverage [] = Raise e) /\
  ~ (exists e, avg_gen_coverage [] = Raise e).
Proof. split; intros [e H]; discriminate H. Qed.

End Means.

(** ** Further properties of the coverage report *)

Section CoverageReport.

Lemma grid_sum_le (q t : list (list Z)) :
  Forall2 (Forall2 (fun v t => 0 <= v <= t)) q t ->
  0 <= grid_sum q <= grid_sum t.
Proof.
  induction 1 as [| vs ts q t Hrow _ IH].
  - unfold grid_sum, sumZ; simpl. lia.
  - rewrite !grid_sum_cons.
    assert (0 <= sumZ vs <= sumZ ts).
    { clear -Hrow. induction Hrow as [| v t' vs ts Hv _ IH'].
      - unfold sumZ; simpl. lia.
      - rewrite !sumZ_cons. lia. }
    lia.
Qed.

(** The percentage [v / t * 100] of a part of a non-empty whole, rounded
    to [d] decimals, lies between 0 and 100. *)
Lemma percentage_range (d : nat) (v t : Z) :
  0 <= v <= t -> t <> 0 ->
  exists p, toFixed d (mul (div (of_Z v) (of_Z t)) (of_Z 100)) = Fin p /\
            (0 <= p <= 100)%Q /\
            (Qabs (p - 100 * inject_Z v / inject_Z t) <= half_ulp d)%Q.
Proof.
  intros Hv Ht.
  destruct (percentage_finite d v t Ht) as (p & Hp & Herr).
  exists p. split; [exact Hp |]. split; [| exact Herr].
  revert Hp. unfold of_Z, div. rewrite (Qzero_inject_Z t Ht).
  cbn [mul toFixed]. intros Hp. injection Hp as <-.
  apply (toFixedQ_range d _ 100). rewrite !Qred_correct.
  assert (HT : (0 < inject_Z t)%Q) by (rewrite <- (Zlt_Qlt 0); lia).
  assert (HV : (0 <= inject_Z v <= inject_Z t)%Q).
  { split; [rewrite <- (Zle_Qle 0) | rewrite <- Zle_Qle]; lia. }
  change (inject_Z 100) with 100%Q.
  set (T := inject_Z t) in *. set (V := inject_Z v) in *.
  assert (E : (V / T * 100 == (100 * V) / T)%Q) by (field; lra).
  rewrite E. split.
  - apply Qle_shift_div_l; [exact HT | lra].
  - apply Qle_shift_div_r; [exact HT | lra].
Qed.

(** X1: on a buffer of positive size the white pixels are at most the
    total, and [coveragePct] is a number between 0 and 100 within 0.005
    of [whitePixels / totalPixels * 100]. *)
Theorem coverage_in_range (w h : Z) (data : list Z) :
  0 < w -> 0 < h ->
  0 <= whitePixels (analyze_pixels w h data)
    <= totalPixels (analyze_pixels w h data) /\
  exists c, coveragePct (analyze_pixels w h data) = Fin c /\
            (0 <= c <= 100)%Q /\
            (Qabs (c - 100 * inject_Z (whitePixels (analyze_pixels w h data))
                       / inject_Z (totalPixels (analyze_pixels w h data)))
               <= 1 # 200)%Q.
Proof.
  intros Hw Hh. pose proof (scan_inv_all w h data) as [_ Hcells Htot Hwhite].
  pose proof (grid_sum_le _ _ Hcells) as Hle.
  cbn [analyze_pixels whitePixels totalPixels coveragePct].
  assert (Hb : 0 <= whiteTotal (scan w h data) <= w * h) by lia.
  split; [exact Hb |].
  destruct (percentage_range 2 _ _ Hb) as (c & Hc & Hr & He); [lia |].
  exists c. split; [exact Hc |]. split; [exact Hr |].
  rewrite <- half_ulp_2. exact He.
Qed.

Lemma coverage_in_range_witness :
  0 < 3 /\ 0 < 2 /\
  0 <= whitePixels (analyze_pixels 3 2 []) <= totalPixels (analyze_pixels 3 2 []).
Proof.
  split; [lia |]. split; [lia |].
  apply (coverage_in_range 3 2 []); lia.
Defined.

(** X2: whatever the buffer, the scan keeps the two grids in step: both
    have [qRows] rows of [qCols] cells, the white count of a cell is
    between 0 and the pixel count of that cell, and the white counts of
    the cells add up to [whitePixels]. *)
Theorem white_counts_partition (w h : Z) (data : list Z) :
  well_shaped (quadrants (scan w h data)) /\
  well_shaped (quadrantTotals (scan w h data)) /\
  Forall2 (Forall2 (fun v t => 0 <= v <= t))
    (quadrants (scan w h data)) (quadrantTotals (scan w h data)) /\
  grid_sum (quadrants (scan w h data)) = whitePixels (analyze_pixels w h data).
Proof.
  pose proof (scan_inv_all w h data) as [Hshape Hcells _ Hwhite].
  split; [exact (well_shaped_Forall2 _ _ _ Hcells Hshape) |].
  split; [exact Hshape |]. split; [exact Hcells | exact Hwhite].
Qed.

Lemma quadrantPct_shape (n : Z) (s : scan_state) :
  scan_inv n s -> well_shaped (quadrantPct s).
Proof.
  intros [Hshape Hcells _ _].
  destruct (well_shaped_Forall2 _ _ _ Hcells Hshape) as [Hlen Hrows].
  unfold quadrantPct. split.
  - rewrite length_imap. exact Hlen.
  - apply Forall_forall. intros row Hin.
    apply list_elem_of_lookup in Hin as [i Hi].
    rewrite list_lookup_imap in Hi.
    destruct (quadrants s !! i) as [vrow |] eqn:Hv; [| discriminate].
    simpl in Hi. injection Hi as <-. rewrite length_imap.
    exact (Forall_lookup_1 _ _ _ _ Hrows Hv).
Qed.

(** X3: the reported quadrant grid always has [qRows] rows of [qCols]
    entries, and each entry is either NaN, for a cell without pixels, or
    a number between 0 and 100. *)
Theorem quadrant_entries (w h : Z) (data : list Z) :
  well_shaped (quadrantCoverage (analyze_pixels w h data)) /\
  Forall (Forall (fun p => p = NaN \/ exists q, p = Fin q /\ (0 <= q <= 100)%Q))
         (quadrantCoverage (analyze_pixels w h data)).
Proof.
  pose proof (scan_inv_all w h data) as Hinv.
  cbn [analyze_pixels quadrantCoverage].
  split; [exact (quadrantPct_shape _ _ Hinv) |].
  rewrite (quadrantPct_zip _ _ Hinv). destruct Hinv as [_ Hcells _ _].
  induction Hcells as [| vs ts q t Hrow _ IH]; [constructor |].
  cbn [zip_with]. constructor; [| exact IH].
  clear IH. induction Hrow as [| v t' vs ts Hv _ IH]; [constructor |].
  cbn [zip_with]. constructor; [| exact IH].
  destruct (Z.eq_dec t' 0) as [-> | Ht].
  - left. replace v with 0 by lia. reflexivity.
  - right. destruct (percentage_range 1 v t' Hv Ht) as (p & Hp & Hr & _).
    exists p. split; [exact Hp | exact Hr].
Qed.

(** The floor in [quadrant_index] is an integer quotient. *)
Lemma quadrant_index_floor (p n q : Z) :
  0 < n ->
  Qfloor (inject_Z p / inject_Z n * inject_Z q) = p * q / n.
Proof.
  intros Hn.
  assert (E : (inject_Z p / inject_Z n * inject_Z q
               == (p * q) # (Z.to_pos n))%Q).
  { rewrite Qmake_Qdiv, inject_Z_mult, Z2Pos.id by lia. field.
    intros H. unfold Qeq in H. simpl in H. lia. }
  rewrite (Qfloor_comp _ _ E). unfold Qfloor.
  rewrite Z2Pos.id by lia. reflexivity.
Qed.

(** X4: for a loop index [p] below the dimension [n] and for [q] one of
    the two grid sizes [qRows] and [qCols], the quadrant index is the
    integer quotient [p * q / n]; it is already below [q], so the clamp
    to [q - 1] never changes it. *)
Theorem quadrant_index_quotient (p n q : Z) :
  0 <= p < n -> q = qRows \/ q = qCols ->
  quadrant_index p n q = p * q / n /\ p * q / n <= q - 1.
Proof.
  intros Hp Hq.
  assert (Hq0 : 0 < q) by (destruct Hq as [-> | ->]; reflexivity).
  unfold quadrant_index. rewrite quadrant_index_floor by lia.
  assert (Hlt : p * q / n < q).
  { apply Z.div_lt_upper_bound; [lia |]. nia. }
  split; lia.
Qed.

Lemma quadrant_index_quotient_witness :
  0 <= 4 < 5 /\ (qCols = qRows \/ qCols = qCols) /\
  quadrant_index 4 5 qCols = 4 * qCols / 5.
Proof.
  split; [lia |]. split; [right; reflexivity |].
  apply (quadrant_index_quotient 4 5 qCols); [lia | right; reflexivity].
Defined.

(** Every quadrant index is hit when the dimension is at least the
    number of quadrants. *)
Lemma quadrant_index_onto (n q c : Z) :
  0 < q <= n -> 0 <= c < q ->
  exists p, 0 <= p < n /\ quadrant_index p n q = c.
Proof.
  intros Hq Hc. exists ((c * n + q - 1) / q).
  pose proof (Z.div_mod (c * n + q - 1) q ltac:(lia)) as Hdm.
  pose proof (Z.mod_pos_bound (c * n + q - 1) q ltac:(lia)) as Hm.
  set (p := (c * n + q - 1) / q) in *.
  assert (Hlo : c * n <= p * q) by nia.
  assert (Hhi : p * q < c * n + q) by nia.
  assert (Hp : 0 <= p < n) by nia.
  split; [exact Hp |].
  unfold quadrant_index. rewrite quadrant_index_floor by lia.
  assert (Hdiv : p * q / n = c).
  { symmetry. apply Z.div_unique with (r := p * q - n * c); nia. }
  lia.
Qed.

Lemma cell_cell_add (g : list (list Z)) (r c v : Z) (r' c' : nat) :
  cell (cell_add g r c v) r' c' =
  if decide (Z.to_nat r = r' /\ Z.to_nat c = c')
  then (fun old => old + v) <$> cell g r' c'
  else cell g r' c'.
Proof.
  unfold cell, cell_add.
  destruct (decide (Z.to_nat r = r')) as [<- | Hr].
  - rewrite list_lookup_alter_eq.
    destruct (g !! Z.to_nat r) as [row |]; simpl.
    + destruct (decide (Z.to_nat c = c')) as [<- | Hc].
      * rewrite list_lookup_alter_eq. rewrite decide_True by done. reflexivity.
      * rewrite list_lookup_alter_ne by done.
        rewrite decide_False by tauto. reflexivity.
    + destruct (decide _); reflexivity.
  - rewrite list_lookup_alter_ne by done.
    rewrite decide_False by tauto. reflexivity.
Qed.

(** A visit never lowers the pixel count of a cell. *)
Lemma visit_cell_ge (w h : Z) (data : list Z) (y x : Z) (s : scan_state)
  (r c : nat) (k : Z) :
  cell_ge (quadrantTotals s) r c k ->
  cell_ge (quadrantTotals (visit w h data y s x)) r c k.
Proof.
  intros (t & Ht & Hk). unfold cell_ge. cbn [visit quadrantTotals].
  rewrite cell_cell_add, Ht. destruct (decide _); simpl; eexists; split;
    try reflexivity; lia.
Qed.

(** After its visit, the cell of a pixel holds at least that pixel. *)
Lemma visit_own_cell (w h : Z) (data : list Z) (y x n : Z) (s : scan_state) :
  0 <= x < w -> 0 <= y < h -> scan_inv n s ->
  cell_ge (quadrantTotals (visit w h data y s x))
          (Z.to_nat (quadrant_index y h qRows))
          (Z.to_nat (quadrant_index x w qCols)) 1.
Proof.
  intros Hx Hy Hinv. pose proof Hinv as [Hshape Hcells _ _].
  pose proof (quadrant_index_range y h qRows ltac:(lia) ltac:(lia) eq_refl) as Hr.
  pose proof (quadrant_index_range x w qCols ltac:(lia) ltac:(lia) eq_refl) as Hc.
  destruct (well_shaped_lookup _ _ _ Hshape Hr Hc) as (trow & t & Htr & Htc).
  assert (Ht : cell (quadrantTotals s) (Z.to_nat (quadrant_index y h qRows))
                 (Z.to_nat (quadrant_index x w qCols)) = Some t).
  { unfold cell. rewrite Htr. exact Htc. }
  destruct (scan_cells _ _ _ _ _ Hinv Ht) as (v & _ & Hv).
  unfold cell_ge. cbn [visit quadrantTotals].
  rewrite cell_cell_add, Ht, decide_True by done.
  simpl. eexists; split; [reflexivity | lia].
Qed.

Lemma scan_row_cell_ge (w h : Z) (data : list Z) (y : Z) (s : scan_state)
  (r c : nat) (k : Z) :
  cell_ge (quadrantTotals s) r c k ->
  cell_ge (quadrantTotals (scan_row w h data s y)) r c k.
Proof.
  unfold scan_row. revert s.
  induction (seqZ 0 w) as [| x l IH]; intros s Hs; [exact Hs |].
  simpl. apply IH, visit_cell_ge, Hs.
Qed.

Lemma scan_row_own_cell (w h : Z) (data : list Z) (y x0 n : Z)
  (s : scan_state) :
  0 <= x0 < w -> 0 <= y < h -> scan_inv n s ->
  cell_ge (quadrantTotals (scan_row w h data s y))
          (Z.to_nat (quadrant_index y h qRows))
          (Z.to_nat (quadrant_index x0 w qCols)) 1.
Proof.
  intros Hx0 Hy. unfold scan_row.
  assert (Hin : x0 ∈ seqZ 0 w) by (apply elem_of_seqZ; lia).
  assert (Hall : Forall (fun x => 0 <= x < w) (seqZ 0 w)).
  { apply Forall_seqZ. intros x Hx. lia. }
  revert n s. induction Hall as [| x l Hx Hl IH]; intros n s Hinv.
  - inversion Hin.
  - simpl. apply elem_of_cons in Hin as [<- | Hin].
    + pose proof (visit_own_cell w h data y x0 n s Hx Hy Hinv) as Hown.
      revert Hown. generalize (visit w h data y s x0). clear.
      induction l as [| x l IH]; intros s Hs; [exact Hs |].
      simpl. apply IH, visit_cell_ge, Hs.
    + apply (IH Hin (n + 1)). apply visit_inv; assumption.
Qed.

Lemma rows_cell_ge (w h : Z) (data : list Z) (l : list Z) (s : scan_state)
  (r c : nat) (k : Z) :
  cell_ge (quadrantTotals s) r c k ->
  cell_ge (quadrantTotals (foldl (scan_row w h data) s l)) r c k.
Proof.
  revert s. induction l as [| y l IH]; intros s Hs; [exact Hs |].
  simpl. apply IH, scan_row_cell_ge, Hs.
Qed.

Lemma rows_own_cell (w h : Z) (data : list Z) (x0 y0 : Z) (l : list Z) :
  0 <= x0 < w -> Forall (fun y => 0 <= y < h) l -> y0 ∈ l ->
  forall n s, scan_inv n s ->
  cell_ge (quadrantTotals (foldl (scan_row w h data) s l))
          (Z.to_nat (quadrant_index y0 h qRows))
          (Z.to_nat (quadrant_index x0 w qCols)) 1.
Proof.
  intros Hx0 Hall. induction Hall as [| y l Hy Hl IH]; intros Hin n s Hinv.
  - inversion Hin.
  - simpl. apply elem_of_cons in Hin as [<- | Hin].
    + apply rows_cell_ge.
      exact (scan_row_own_cell w h data y0 x0 n s Hx0 Hy Hinv).
    + apply (IH Hin (n + Z.max 0 w)). apply scan_row_inv; assumption.
Qed.

(** Every pixel of the buffer is counted in the cell its indices name. *)
Lemma scan_own_cell (w h : Z) (data : list Z) (x0 y0 : Z) :
  0 <= x0 < w -> 0 <= y0 < h ->
  cell_ge (quadrantTotals (scan w h data))
          (Z.to_nat (quadrant_index y0 h qRows))
          (Z.to_nat (quadrant_index x0 w qCols)) 1.
Proof.
  intros Hx0 Hy0. unfold scan.
  apply (rows_own_cell w h data x0 y0 (seqZ 0 h) Hx0) with (n := 0).
  - apply Forall_seqZ. intros y Hy. lia.
  - apply elem_of_seqZ. lia.
  - exact scan_init_inv.
Qed.

(** X5: when the buffer is at least as wide and as high as the quadrant
    grid, every cell receives at least one pixel, so every reported
    quadrant percentage is a number between 0 and 100 and none is NaN. *)
Theorem no_empty_cell_when_grid_fits (w h : Z) (data : list Z) (r c : nat) :
  qCols <= w -> qRows <= h ->
  (r < Z.to_nat qRows)%nat -> (c < Z.to_nat qCols)%nat ->
  exists t p,
    cell (quadrantTotals (scan w h data)) r c = Some t /\ 0 < t /\
    cell (quadrantCoverage (analyze_pixels w h data)) r c = Some (Fin p) /\
    (0 <= p <= 100)%Q.
Proof.
  intros Hw Hh Hr Hc.
  destruct (quadrant_index_onto h qRows (Z.of_nat r)) as (y0 & Hy0 & Ey);
    [unfold qRows in *; lia | lia |].
  destruct (quadrant_index_onto w qCols (Z.of_nat c)) as (x0 & Hx0 & Ex);
    [unfold qCols in *; lia | lia |].
  pose proof (scan_own_cell w h data x0 y0 Hx0 Hy0) as (t & Ht & Hpos).
  rewrite Ey, Ex, !Nat2Z.id in Ht.
  pose proof (scan_inv_all w h data) as Hinv.
  destruct (scan_cells _ _ _ _ _ Hinv Ht) as (v & Hv & Hvt).
  destruct (percentage_range 1 v t Hvt ltac:(lia)) as (p & Hp & Hrange & _).
  exists t, p. split; [exact Ht |]. split; [lia |]. split; [| exact Hrange].
  cbn [analyze_pixels quadrantCoverage].
  rewrite cell_quadrantPct, Hv. f_equal.
  unfold cell_pct, total_at. rewrite Ht. exact Hp.
Qed.

Lemma no_empty_cell_when_grid_fits_witness :
  qCols <= 4 /\ qRows <= 2 /\ (1 < Z.to_nat qRows)%nat /\
  (3 < Z.to_nat qCols)%nat /\
  exists t p,
    cell (quadrantTotals (scan 4 2 [])) 1 3 = Some t /\ 0 < t /\
    cell (quadrantCoverage (analyze_pixels 4 2 [])) 1 3 = Some (Fin p) /\
    (0 <= p <= 100)%Q.
Proof.
  split; [unfold qCols; lia |]. split; [unfold qRows; lia |].
  split; [unfold qRows; simpl; lia |]. split; [unfold qCols; simpl; lia |].
  apply (no_empty_cell_when_grid_fits 4 2 [] 1 3);
    unfold qCols, qRows; simpl; lia.
Defined.

Lemma whiteTotal_visits (w h : Z) (data : list Z) (y : Z) (l : list Z)
  (s : scan_state) :
  whiteTotal (foldl (visit w h data y) s l)
  = whiteTotal s + sumZ ((fun x => isWhite data ((y * w + x) * 4)) <$> l).
Proof.
  revert s. induction l as [| x l IH]; intros s.
  - unfold sumZ; simpl. lia.
  - cbn [foldl fmap list_fmap]. rewrite IH, sumZ_cons. cbn [visit whiteTotal]. lia.
Qed.

Lemma whiteTotal_rows (w h : Z) (data : list Z) (l : list Z) (s : scan_state) :
  whiteTotal (foldl (scan_row w h data) s l)
  = whiteTotal s
    + grid_sum ((fun y => (fun x => isWhite data ((y * w + x) * 4)) <$> seqZ 0 w)
                <$> l).
Proof.
  revert s. induction l as [| y l IH]; intros s.
  - unfold grid_sum, sumZ; simpl. lia.
  - cbn [foldl fmap list_fmap]. rewrite IH, grid_sum_cons.
    unfold scan_row. rewrite whiteTotal_visits. lia.
Qed.

(** X6: [whitePixels] is the number of pixels of the buffer that
    [isWhite] accepts: the sum, over the rows and columns in scan order,
    of the 0 or 1 it gives at the pixel's offset [(y * w + x) * 4]. *)
Theorem white_pixels_count (w h : Z) (data : list Z) :
  whitePixels (analyze_pixels w h data) = grid_sum (white_map w h data) /\
  Forall (Forall (fun b => b = 0 \/ b = 1)) (white_map w h data).
Proof.
  split.
  - cbn [analyze_pixels whitePixels]. unfold scan, white_map.
    rewrite whiteTotal_rows. reflexivity.
  - unfold white_map. apply Forall_fmap, Forall_forall. intros y _.
    apply Forall_fmap, Forall_forall. intros x _. simpl.
    unfold isWhite. destruct (gt _ _); [right | left]; reflexivity.
Qed.

(** X7: a pixel whose three colour channels are not all inside the data
    array is not white: the missing read makes the brightness NaN and
    the comparison with 128 false. *)
Theorem truncated_pixel_not_white (data : list Z) (i : Z) :
  (length data <= Z.to_nat (i + 2))%nat -> isWhite data i = 0.
Proof.
  intros Hlen. unfold isWhite, brightness.
  assert (Hc : channel data (i + 2) = NaN).
  { unfold channel. destruct (i + 2 <? 0); [reflexivity |].
    rewrite lookup_ge_None_2 by lia. reflexivity. }
  rewrite Hc.
  destruct (add (channel data i) (channel data (i + 1))); reflexivity.
Qed.

Lemma truncated_pixel_not_white_witness :
  (length [255; 255] <= Z.to_nat (0 + 2))%nat /\ isWhite [255; 255] 0 = 0.
Proof.
  split; [simpl; lia |].
  apply (truncated_pixel_not_white [255; 255] 0). simpl. lia.
Defined.

Lemma sumZ_constant {A} (f : A -> Z) (b : Z) (l : list A) :
  Forall (fun x => f x = b) l -> sumZ (f <$> l) = b * Z.of_nat (length l).
Proof.
  induction 1 as [| x l Hx _ IH].
  - unfold sumZ; simpl. lia.
  - cbn [fmap list_fmap]. rewrite sumZ_cons, IH, Hx. simpl length. lia.
Qed.

(** X8: on a buffer of positive size whose pixels all get the same
    verdict [b] (1 for white, 0 for not white), [whitePixels] is [b]
    times [totalPixels] and [coveragePct] is exactly [100 * b]. *)
Theorem uniform_buffer_coverage (w h : Z) (data : list Z) (b : Z) :
  0 < w -> 0 < h -> b = 0 \/ b = 1 ->
  (forall x y, 0 <= x < w -> 0 <= y < h ->
     isWhite data ((y * w + x) * 4) = b) ->
  whitePixels (analyze_pixels w h data)
    = b * totalPixels (analyze_pixels w h data) /\
  coveragePct (analyze_pixels w h data) = of_Z (100 * b).
Proof.
  intros Hw Hh Hb Hall.
  assert (Hwhite : whiteTotal (scan w h data) = b * (w * h)).
  { unfold scan. rewrite whiteTotal_rows. cbn [scan_init whiteTotal].
    unfold grid_sum. rewrite <- list_fmap_compose.
    rewrite (sumZ_constant _ (b * w)).
    - rewrite length_seqZ. lia.
    - apply Forall_seqZ. intros y Hy. simpl.
      rewrite (sumZ_constant _ b).
      + rewrite length_seqZ. lia.
      + apply Forall_seqZ. intros x Hx. apply Hall; lia. }
  cbn [analyze_pixels whitePixels totalPixels coveragePct].
  split; [exact Hwhite |]. rewrite Hwhite.
  unfold of_Z, div. rewrite (Qzero_inject_Z (w * h)) by lia.
  assert (E : Qred (inject_Z (b * (w * h)) / inject_Z (w * h)) = inject_Z b).
  { assert (Hq : (inject_Z (b * (w * h)) / inject_Z (w * h) == inject_Z b)%Q).
    { rewrite inject_Z_mult. field. intros H. unfold Qeq in H. simpl in H. lia. }
    rewrite (Qred_complete _ _ Hq). destruct Hb as [-> | ->]; reflexivity. }
  rewrite E. destruct Hb as [-> | ->]; reflexivity.
Qed.

Lemma uniform_buffer_coverage_witness :
  0 < 2 /\ 0 < 2 /\ (1 = 0 \/ 1 = 1) /\
  coveragePct (analyze_pixels 2 2
    [255; 255; 255; 255; 255; 255; 255; 255;
     255; 255; 255; 255; 255; 255; 255; 255]) = of_Z (100 * 1).
Proof.
  split; [lia |]. split; [lia |]. split; [right; reflexivity |].
  apply (uniform_buffer_coverage 2 2 _ 1); try lia.
  intros x y Hx Hy.
  assert (Hxy : (x = 0 \/ x = 1) /\ (y = 0 \/ y = 1)) by lia.
  destruct Hxy as [[-> | ->] [-> | ->]]; reflexivity.
Defined.

End CoverageReport.

(** ** Further properties of the edge counts *)

Section EdgeCounts.

Lemma count_inner_shift (present : Z -> bool) (l : list Z) (n : Z) :
  foldl (fun n b => if present b then n + 1 else n) n l
  = n + foldl (fun n b => if present b then n + 1 else n) 0 l.
Proof.
  revert n. induction l as [| b l IH]; intros n; simpl; [lia |].
  destruct (present b).
  - rewrite (IH (n + 1)), (IH (0 + 1)). lia.
  - apply IH.
Qed.

Lemma count_present_shift (present : Z -> Z -> bool) (na nb n : Z) :
  count_present present na nb n = n + count_present present na nb 0.
Proof.
  unfold count_present. revert n.
  induction (seqZ 0 na) as [| a l IH]; intros n; cbn [foldl].
  - lia.
  - rewrite IH, (IH (foldl _ 0 _)), (count_inner_shift (present a) _ n). lia.
Qed.

Lemma count_present_nonneg (present : Z -> Z -> bool) (na nb : Z) :
  0 <= count_present present na nb 0.
Proof. apply (count_present_bounds present na nb 0). Qed.

(** The loop over [dEdges], entry by entry. *)
Lemma count_dEdges_exact (es : list DEdge) (k : counters) :
  foldl (fun k e =>
           if is_arc e
           then {| hCount := hCount k; vCount := vCount k;
                   arcCount := arcCount k + 1; diagCount := diagCount k |}
           else {| hCount := hCount k; vCount := vCount k;
                   arcCount := arcCount k; diagCount := diagCount k + 1 |})
        k es
  = {| hCount := hCount k; vCount := vCount k;
       arcCount := arcCount k + Z.of_nat (length (List.filter is_arc es));
       diagCount := diagCount k
         + Z.of_nat (length (List.filter (fun e => negb (is_arc e)) es)) |}.
Proof.
  revert k. induction es as [| e es IH]; intros k; cbn [foldl List.filter].
  - destruct k; simpl. f_equal; lia.
  - rewrite IH. destruct (is_arc e); simpl; f_equal; lia.
Qed.

(** What a panel adds does not depend on the counters so far. *)
Lemma count_grid_add (ROWS COLS : Z) (k : counters) (grid : Grid) :
  count_grid ROWS COLS k grid
  = add_counters k (count_grid ROWS COLS no_edges grid).
Proof.
  unfold count_grid. rewrite !count_dEdges_exact. unfold add_counters.
  cbn [hCount vCount arcCount diagCount no_edges].
  rewrite (count_present_shift (getH grid) _ _ (hCount k)).
  rewrite (count_present_shift (getV grid) _ _ (vCount k)).
  f_equal; lia.
Qed.

Lemma add_counters_assoc (a b c : counters) :
  add_counters (add_counters a b) c = add_counters a (add_counters b c).
Proof. unfold add_counters; simpl. f_equal; lia. Qed.

Lemma add_counters_no_edges (a : counters) : add_counters a no_edges = a.
Proof. destruct a. unfold add_counters; simpl. f_equal; lia. Qed.

Lemma count_grids_add (ROWS COLS : Z) (grids : list Grid) (k : counters) :
  foldl (count_grid ROWS COLS) k grids
  = add_counters k (count_edges ROWS COLS grids).
Proof.
  unfold count_edges. revert k.
  induction grids as [| g grids IH]; intros k; cbn [foldl].
  - symmetry. apply add_counters_no_edges.
  - rewrite IH, (IH (count_grid ROWS COLS no_edges g)).
    rewrite (count_grid_add ROWS COLS k g). apply add_counters_assoc.
Qed.

(** X9: the edge counts of a text are the sums of the counts of its
    panels: counting over two runs of panels one after the other gives,
    counter by counter, the sum of the two counts, and so does
    [totalEdges]. *)
Theorem edge_counts_add_over_panels (ROWS COLS : Z) (g1 g2 : list Grid)
  (paths : list PathElem) :
  count_edges ROWS COLS (g1 ++ g2)
    = add_counters (count_edges ROWS COLS g1) (count_edges ROWS COLS g2) /\
  totalEdges (get_generated_stats ROWS COLS (g1 ++ g2) paths)
    = totalEdges (get_generated_stats ROWS COLS g1 paths)
      + totalEdges (get_generated_stats ROWS COLS g2 paths).
Proof.
  assert (H : count_edges ROWS COLS (g1 ++ g2)
              = add_counters (count_edges ROWS COLS g1)
                             (count_edges ROWS COLS g2)).
  { unfold count_edges at 1. rewrite foldl_app. apply count_grids_add. }
  split; [exact H |].
  cbn [get_generated_stats totalEdges]. rewrite H.
  unfold add_counters. cbn [hCount vCount arcCount diagCount]. lia.
Qed.

Lemma count_edges_cons (ROWS COLS : Z) (g : Grid) (grids : list Grid) :
  count_edges ROWS COLS (g :: grids)
  = add_counters (count_grid ROWS COLS no_edges g) (count_edges ROWS COLS grids).
Proof. unfold count_edges at 1. cbn [foldl]. apply count_grids_add. Qed.

(** X10: the arc counter is the number of entries of the panels'
    [dEdges] lists whose type is exactly "arc", and the diagonal counter
    is the number of all the other entries, whatever their type. *)
Theorem arcs_and_diags_split (ROWS COLS : Z) (grids : list Grid)
  (paths : list PathElem) :
  arcs (get_generated_stats ROWS COLS grids paths)
    = Z.of_nat (length (List.filter is_arc (all_dEdges grids))) /\
  diags (get_generated_stats ROWS COLS grids paths)
    = Z.of_nat (length (List.filter (fun e => negb (is_arc e))
                                    (all_dEdges grids))) /\
  arcs (get_generated_stats ROWS COLS grids paths)
    + diags (get_generated_stats ROWS COLS grids paths)
    = Z.of_nat (length (all_dEdges grids)) /\
  (forall e, is_arc e = true <-> type e = "arc"%string).
Proof.
  cbn [get_generated_stats arcs diags].
  assert (H : arcCount (count_edges ROWS COLS grids)
                = Z.of_nat (length (List.filter is_arc (all_dEdges grids))) /\
              diagCount (count_edges ROWS COLS grids)
                = Z.of_nat (length (List.filter (fun e => negb (is_arc e))
                                                (all_dEdges grids)))).
  { induction grids as [| g grids [IHa IHd]]; [split; reflexivity |].
    rewrite count_edges_cons. unfold add_counters, count_grid, all_dEdges.
    rewrite count_dEdges_exact. cbn [arcCount diagCount no_edges].
    cbn [fmap list_fmap concat]. rewrite !List.filter_app, !length_app.
    fold (all_dEdges grids). rewrite IHa, IHd. split; lia. }
  destruct H as [Ha Hd]. split; [exact Ha |]. split; [exact Hd |]. split.
  - rewrite Ha, Hd. generalize (all_dEdges grids) as es.
    induction es as [| e es IH]; [reflexivity |].
    cbn [List.filter]. destruct (is_arc e); simpl negb; cbn [length]; lia.
  - intros e. unfold is_arc. apply String.eqb_eq.
Qed.

(** X11: with the 80 + 68 geometry, whatever the number of panels, the
    horizontal count is between 0 and 80 per panel and the vertical count
    between 0 and 68 per panel, so [totalEdges] is at most 148 per panel
    plus the number of [dEdges] entries. *)
Theorem edge_counts_per_panel (ROWS COLS : Z) (grids : list Grid)
  (paths : list PathElem) :
  0 <= ROWS -> 0 <= COLS ->
  ROWS * (COLS - 1) <= 80 -> (ROWS - 1) * COLS <= 68 ->
  0 <= hEdges (get_generated_stats ROWS COLS grids paths)
    <= 80 * panels (get_generated_stats ROWS COLS grids paths) /\
  0 <= vEdges (get_generated_stats ROWS COLS grids paths)
    <= 68 * panels (get_generated_stats ROWS COLS grids paths) /\
  0 <= totalEdges (get_generated_stats ROWS COLS grids paths)
    <= 148 * panels (get_generated_stats ROWS COLS grids paths)
       + Z.of_nat (length (all_dEdges grids)).
Proof.
  intros HR HC HH HV.
  cbn [get_generated_stats hEdges vEdges panels totalEdges]. unfold len.
  induction grids as [| g grids IH].
  - simpl. lia.
  - rewrite count_edges_cons. unfold add_counters, all_dEdges.
    cbn [hCount vCount arcCount diagCount fmap list_fmap concat].
    rewrite length_app. fold (all_dEdges grids).
    pose proof (count_grid_bounds ROWS COLS no_edges g) as Hb.
    cbv zeta in Hb. cbn [no_edges hCount vCount arcCount diagCount] in Hb.
    destruct Hb as (H1 & H2 & H3 & H4 & H5).
    cbn [length]. nia.
Qed.

Lemma edge_counts_per_panel_witness :
  0 <= 5 /\ 0 <= 17 /\ 5 * (17 - 1) <= 80 /\ (5 - 1) * 17 <= 68 /\
  0 <= hEdges (get_generated_stats 5 17
         [ {| getH := fun _ _ => true; getV := fun _ _ => false; dEdges := [] |};
           {| getH := fun _ _ => true; getV := fun _ _ => true; dEdges := [] |} ]
         [])
    <= 80 * 2.
Proof.
  repeat (split; [lia |]).
  apply (edge_counts_per_panel 5 17
           [ {| getH := fun _ _ => true; getV := fun _ _ => false; dEdges := [] |};
             {| getH := fun _ _ => true; getV := fun _ _ => true; dEdges := [] |} ]
           []); lia.
Defined.

Lemma count_edges_nonneg (ROWS COLS : Z) (grids : list Grid) :
  0 <= hCount (count_edges ROWS COLS grids) /\
  0 <= vCount (count_edges ROWS COLS grids) /\
  0 <= arcCount (count_edges ROWS COLS grids) /\
  0 <= diagCount (count_edges ROWS COLS grids).
Proof.
  induction grids as [| g grids (H1 & H2 & H3 & H4)].
  - simpl. lia.
  - rewrite count_edges_cons. unfold add_counters.
    cbn [hCount vCount arcCount diagCount].
    pose proof (count_grid_bounds ROWS COLS no_edges g) as Hb.
    cbv zeta in Hb. cbn [no_edges hCount vCount arcCount diagCount] in Hb.
    lia.
Qed.

Lemma toFixedQ_nonneg (d : nat) (x : Q) : (0 <= x -> 0 <= toFixedQ d x)%Q.
Proof.
  intros Hx.
  apply (toFixedQ_range d x (Qceiling x)). split; [exact Hx | apply Qle_ceiling].
Qed.

(** X12: whatever the panels and the geometry, [edgeDensity] is a
    number, never NaN or an infinity: it is at least 0 and within 0.05 of
    [totalEdges / 212 * 100]. *)
Theorem edge_density_is_a_number (ROWS COLS : Z) (grids : list Grid)
  (paths : list PathElem) :
  exists d, edgeDensity (get_generated_stats ROWS COLS grids paths) = Fin d /\
            (0 <= d)%Q /\
            (Qabs (d - 100 * inject_Z
                       (totalEdges (get_generated_stats ROWS COLS grids paths))
                     / inject_Z maxEdges) <= 1 # 20)%Q.
Proof.
  cbn [get_generated_stats totalEdges edgeDensity].
  pose proof (count_edges_nonneg ROWS COLS grids) as (H1 & H2 & H3 & H4).
  set (total := hCount _ + vCount _ + arcCount _ + diagCount _).
  assert (Ht : 0 <= total) by (unfold total; lia).
  destruct (percentage_finite 1 total maxEdges) as (d & Hd & Herr);
    [unfold maxEdges; lia |].
  exists d. split; [exact Hd |]. split; [| rewrite <- half_ulp_1; exact Herr].
  revert Hd. unfold of_Z, div.
  rewrite (Qzero_inject_Z maxEdges) by (unfold maxEdges; lia).
  cbn [mul toFixed]. intros Hd. injection Hd as <-.
  apply toFixedQ_nonneg. rewrite !Qred_correct.
  rewrite Zle_Qle in Ht. change (inject_Z 0) with 0%Q in Ht.
  change (inject_Z maxEdges) with 212%Q. change (inject_Z 100) with 100%Q.
  set (T := inject_Z total) in *.
  assert (E : (T / 212 * 100 == T * (100 # 212))%Q) by field.
  rewrite E. lra.
Qed.

End EdgeCounts.

(** ** Further properties of the chain statistics *)

Section ChainStats.

Lemma gt_of_Z (a b : Z) : gt (of_Z a) (of_Z b) = (b <? a).
Proof.
  unfold of_Z. cbn [gt].
  destruct (Z.ltb_spec b a) as [H | H].
  - apply negb_true_iff. destruct (Qle_bool (inject_Z a) (inject_Z b)) eqn:E;
      [| reflexivity].
    apply Qle_bool_iff in E. rewrite <- Zle_Qle in E. lia.
  - apply negb_false_iff. apply Qle_bool_iff. rewrite <- Zle_Qle. exact H.
Qed.

Lemma max_of_integers (l : list Z) :
  l <> [] ->
  exists m, max_of (of_Z <$> l) = of_Z m /\ m ∈ l /\ Forall (fun x => x <= m) l.
Proof.
  induction l as [| a l IH]; [congruence |]. intros _.
  destruct l as [| b l].
  - exists a. split; [reflexivity |]. split; [apply list_elem_of_here |].
    constructor; [lia | constructor].
  - destruct IH as (m & Hm & Hin & Hall); [congruence |].
    cbn [fmap list_fmap max_of foldr] in *.
    unfold max_of in Hm. cbn [fmap list_fmap foldr] in Hm. rewrite Hm.
    unfold max2. change (of_Z a) with (Fin (inject_Z a)) at 1.
    change (of_Z m) with (Fin (inject_Z m)) at 1.
    change (Fin (inject_Z a)) with (of_Z a). change (Fin (inject_Z m)) with (of_Z m).
    rewrite gt_of_Z. destruct (Z.ltb_spec m a) as [H | H].
    + exists a. split; [reflexivity |]. split; [apply list_elem_of_here |].
      constructor; [lia |]. eapply Forall_impl; [exact Hall |].
      intros x Hx. simpl in *. lia.
    + exists m. split; [reflexivity |]. split; [apply list_elem_of_further, Hin |].
      constructor; [lia | exact Hall].
Qed.

(** X13: for a non-empty sequence of chain lengths, [maxChain] is one of
    the lengths and no length is above it. *)
Theorem max_chain_is_maximum (chains : list Z) :
  chains <> [] ->
  exists m, max_chain chains = of_Z m /\ m ∈ chains /\
            Forall (fun x => x <= m) chains.
Proof.
  intros Hne. unfold max_chain.
  destruct (Z.ltb_spec 0 (len chains)) as [_ | Hn].
  - apply max_of_integers, Hne.
  - destruct chains; [congruence |]. unfold len in Hn. simpl in Hn. lia.
Qed.

Lemma max_chain_is_maximum_witness :
  [2; 5; 3] <> [] /\
  exists m, max_chain [2; 5; 3] = of_Z m /\ m ∈ [2; 5; 3] /\
            Forall (fun x => x <= m) [2; 5; 3].
Proof.
  split; [discriminate |].
  apply (max_chain_is_maximum [2; 5; 3]). discriminate.
Defined.

Lemma segs_nonneg (p : PathElem) : 0 <= segs p.
Proof. unfold segs. lia. Qed.

Lemma sumZ_bounds (l : list Z) (m : Z) :
  Forall (fun x => 0 <= x <= m) l ->
  0 <= sumZ l <= m * Z.of_nat (length l).
Proof.
  induction 1 as [| x l Hx _ IH].
  - unfold sumZ; simpl. lia.
  - rewrite sumZ_cons. cbn [length]. lia.
Qed.

(** X14: when the SVG has at least one path, [avgChain] is a number
    between 0 and [maxChain], and [maxChain] is the largest entry of
    [chainLengths]. *)
Theorem avg_chain_at_most_max (ROWS COLS : Z) (grids : list Grid)
  (paths : list PathElem) :
  paths <> [] ->
  exists a m,
    avgChain (get_generated_stats ROWS COLS grids paths) = Fin a /\
    maxChain (get_generated_stats ROWS COLS grids paths) = of_Z m /\
    (0 <= a <= inject_Z m)%Q /\
    m ∈ chainLengths (get_generated_stats ROWS COLS grids paths).
Proof.
  intros Hne. cbn [get_generated_stats avgChain maxChain chainLengths].
  rewrite chain_lengths_fmap. set (chains := segs <$> paths).
  assert (Hc : chains <> []).
  { unfold chains. destruct paths; [congruence | discriminate]. }
  assert (Hn : 0 < len chains).
  { destruct chains; [congruence |]. unfold len. simpl. lia. }
  assert (Hmax : exists m, max_chain chains = of_Z m /\ m ∈ chains /\
                           Forall (fun x => x <= m) chains).
  { unfold max_chain. destruct (Z.ltb_spec 0 (len chains)); [| lia].
    apply max_of_integers, Hc. }
  destruct Hmax as (m & Hm & Hin & Hall).
  assert (Hb : Forall (fun x => 0 <= x <= m) chains).
  { apply Forall_forall. intros x Hx. split.
    - unfold chains in Hx. apply list_elem_of_fmap in Hx as (p & -> & _).
      apply segs_nonneg.
    - exact (proj1 (Forall_forall _ _) Hall x Hx). }
  pose proof (sumZ_bounds _ _ Hb) as Hs. fold (len chains) in Hs.
  unfold avg_chain. destruct (Z.ltb_spec 0 (len chains)); [| lia].
  rewrite reduce_add_sumZ. unfold of_Z at 1 2, div.
  rewrite (Qzero_inject_Z (len chains)) by lia. cbn [toFixed].
  eexists; exists m. split; [reflexivity |]. split; [exact Hm |].
  split; [| exact Hin].
  apply toFixedQ_range. rewrite Qred_correct.
  assert (HN : (0 < inject_Z (len chains))%Q) by (rewrite <- (Zlt_Qlt 0); lia).
  destruct Hs as [Hs0 Hs1]. rewrite Zle_Qle in Hs0, Hs1.
  rewrite inject_Z_mult in Hs1. change (inject_Z 0) with 0%Q in Hs0.
  split.
  - apply Qle_shift_div_l; [exact HN | lra].
  - apply Qle_shift_div_r; [exact HN | exact Hs1].
Qed.

Lemma avg_chain_at_most_max_witness :
  [ {| getAttribute_d := Some "M0 0H1V1"%string |};
    {| getAttribute_d := None |} ] <> [] /\
  exists a m,
    avgChain (get_generated_stats 5 17 []
      [ {| getAttribute_d := Some "M0 0H1V1"%string |};
        {| getAttribute_d := None |} ]) = Fin a /\
    maxChain (get_generated_stats 5 17 []
      [ {| getAttribute_d := Some "M0 0H1V1"%string |};
        {| getAttribute_d := None |} ]) = of_Z m /\
    (0 <= a <= inject_Z m)%Q /\
    m ∈ chainLengths (get_generated_stats 5 17 []
      [ {| getAttribute_d := Some "M0 0H1V1"%string |};
        {| getAttribute_d := None |} ]).
Proof.
  split; [discriminate |].
  apply (avg_chain_at_most_max 5 17 []). discriminate.
Defined.




End ChainStats.

(** ** Further properties of the coverage means and of their difference *)

Section Comparison.

Lemma py_sum_finite (qs : list Q) (acc : Q) :
  exists t, foldl add (Fin acc) (Fin <$> qs) = Fin t /\ (t == acc + sumQ qs)%Q.
Proof.
  revert acc. induction qs as [| q qs IH]; intros acc.
  - exists acc. split; [reflexivity |]. unfold sumQ; simpl. ring.
  - cbn [fmap list_fmap foldl add].
    destruct (IH (Qred (acc + q))) as (t & Ht & Et).
    exists t. split; [exact Ht |].
    rewrite Et, Qred_correct. unfold sumQ; simpl. ring.
Qed.

Lemma sumQ_bounds (qs : list Q) (m : Q) :
  Forall (fun q => (0 <= q <= m)%Q) qs ->
  (0 <= sumQ qs <= m * inject_Z (Z.of_nat (length qs)))%Q.
Proof.
  induction 1 as [| q qs Hq _ IH].
  - unfold sumQ; simpl. split; [lra |]. ring_simplify. lra.
  - change (sumQ (q :: qs)) with (q + sumQ qs)%Q.
    cbn [length]. rewrite Nat2Z.inj_succ. unfold Z.succ.
    rewrite inject_Z_plus. change (inject_Z 1) with 1%Q.
    set (N := inject_Z (Z.of_nat (length qs))) in *.
    assert (E : (m * (N + 1) == m * N + m)%Q) by ring.
    rewrite E. lra.
Qed.

(** X16: the mean of a non-empty list of coverages that are numbers
    between 0 and 100 is returned, and is itself a number between 0 and
    100. *)
Theorem mean_of_coverages_in_range (gen_coverages : list number) :
  gen_coverages <> [] ->
  Forall (fun x => exists q, x = Fin q /\ (0 <= q <= 100)%Q) gen_coverages ->
  exists m, avg_gen_coverage gen_coverages = Return (Fin m) /\
            (0 <= m <= 100)%Q.
Proof.
  intros Hne Hall.
  assert (Hqs : exists qs, gen_coverages = Fin <$> qs /\
                           Forall (fun q => (0 <= q <= 100)%Q) qs).
  { clear Hne. induction Hall as [| x l (q & -> & Hq) _ (qs & -> & Hqs)].
    - exists []. split; [reflexivity | constructor].
    - exists (q :: qs). split; [reflexivity | constructor; assumption]. }
  destruct Hqs as (qs & -> & Hqs).
  assert (Hn : Z.of_nat (length qs) <> 0%Z).
  { destruct qs; [exfalso; apply Hne; reflexivity | simpl; lia]. }
  unfold avg_gen_coverage.
  replace (truthy (Fin <$> qs)) with true
    by (destruct qs; [exfalso; apply Hne; reflexivity | reflexivity]).
  unfold truediv, py_sum. rewrite length_fmap.
  destruct (Z.eqb_spec (Z.of_nat (length qs)) 0) as [H | _]; [lia |].
  destruct (py_sum_finite qs 0) as (t & Ht & Et).
  change (of_Z 0) with (Fin 0). rewrite Ht.
  unfold of_Z, div. rewrite (Qzero_inject_Z _ Hn).
  eexists; split; [reflexivity |]. rewrite Qred_correct.
  pose proof (sumQ_bounds qs 100 Hqs) as [Hs0 Hs1].
  assert (HN : (0 < inject_Z (Z.of_nat (length qs)))%Q).
  { rewrite <- (Zlt_Qlt 0). lia. }
  set (N := inject_Z (Z.of_nat (length qs))) in *. split.
  - apply Qle_shift_div_l; [exact HN | lra].
  - apply Qle_shift_div_r; [exact HN | lra].
Qed.

Lemma mean_of_coverages_in_range_witness :
  [Fin 10; Fin (2533 # 100); Fin 100] <> [] /\
  exists m, avg_gen_coverage [Fin 10; Fin (2533 # 100); Fin 100]
              = Return (Fin m) /\
            (0 <= m <= 100)%Q.
Proof.
  split; [discriminate |].
  apply (mean_of_coverages_in_range [Fin 10; Fin (2533 # 100); Fin 100]);
    [discriminate |].
  repeat constructor; eexists; (split; [reflexivity |]);
    split; unfold Qle; simpl; lia.
Defined.

Lemma add_NaN_r (a : number) : add a NaN = NaN.
Proof. destruct a; reflexivity. Qed.

Lemma py_sum_NaN_acc (xs : list number) : foldl add NaN xs = NaN.
Proof. induction xs as [| x xs IH]; [reflexivity | exact IH]. Qed.

Lemma py_sum_NaN (xs : list number) (acc : number) :
  NaN ∈ xs -> foldl add acc xs = NaN.
Proof.
  revert acc. induction xs as [| x xs IH]; intros acc Hin; [inversion Hin |].
  cbn [foldl]. apply elem_of_cons in Hin as [<- | Hin].
  - rewrite add_NaN_r. apply py_sum_NaN_acc.
  - apply IH, Hin.
Qed.

Lemma avg_ref_coverage_returns (ref_stats : list report) :
  exists v, avg_ref_coverage ref_stats = Return v.
Proof.
  unfold avg_ref_coverage, truediv. destruct ref_stats as [| r l]; cbn [truthy].
  - eexists; reflexivity.
  - destruct (Z.eqb_spec (Z.of_nat (length (r :: l))) 0) as [H | _].
    + simpl in H. lia.
    + eexists; reflexivity.
Qed.

(** X17: one NaN among the generated coverages makes their mean NaN,
    and the comparison then reports a NaN difference under the word
    "sparser", whatever the reference reports are. *)
Theorem NaN_coverage_poisons_summary (ref_stats : list report)
  (gen_coverages : list number) :
  NaN ∈ gen_coverages ->
  avg_gen_coverage gen_coverages = Return NaN /\
  coverage_diff ref_stats gen_coverages = Return (NaN, "sparser"%string).
Proof.
  intros Hin.
  assert (Hg : avg_gen_coverage gen_coverages = Return NaN).
  { unfold avg_gen_coverage, truediv, py_sum.
    destruct gen_coverages as [| x l]; [inversion Hin |]. cbn [truthy].
    destruct (Z.eqb_spec (Z.of_nat (length (x :: l))) 0) as [H | _];
      [simpl in H; lia |].
    rewrite (py_sum_NaN _ _ Hin). reflexivity. }
  split; [exact Hg |]. unfold coverage_diff.
  destruct (avg_ref_coverage_returns ref_stats) as (v & ->). rewrite Hg.
  reflexivity.
Qed.

Lemma NaN_coverage_poisons_summary_witness :
  NaN ∈ [Fin 10; NaN] /\
  coverage_diff [] [Fin 10; NaN] = Return (NaN, "sparser"%string).
Proof.
  assert (Hin : NaN ∈ [Fin 10; NaN]).
  { apply list_elem_of_further, list_elem_of_here. }
  split; [exact Hin |].
  apply (NaN_coverage_poisons_summary [] [Fin 10; NaN] Hin).
Defined.

(** X18: when both means are finite, the difference is the generated
    mean minus the reference mean, and the word is "denser" exactly when
    the generated mean is strictly the larger; equal means are reported
    as "sparser". *)
Theorem diff_label_finite (ref_stats : list report)
  (gen_coverages : list number) (r g : Q) :
  avg_ref_coverage ref_stats = Return (Fin r) ->
  avg_gen_coverage gen_coverages = Return (Fin g) ->
  exists d l, coverage_diff ref_stats gen_coverages = Return (Fin d, l) /\
              (d == g - r)%Q /\
              (l = "denser"%string <-> (r < g)%Q) /\
              (l = "sparser"%string <-> (g <= r)%Q).
Proof.
  intros Hr Hg. unfold coverage_diff. rewrite Hr, Hg. cbn [sub].
  eexists; eexists; split; [reflexivity |].
  pose proof (Qred_correct (g - r)) as E. split; [exact E |].
  unfold label, of_Z. cbn [gt]. change (inject_Z 0) with 0%Q.
  destruct (Qle_bool (Qred (g - r)) 0) eqn:Hle; simpl.
  - apply Qle_bool_iff in Hle. rewrite E in Hle.
    split; split; intros H; try discriminate H; try reflexivity; lra.
  - assert (Hlt : (0 < Qred (g - r))%Q).
    { apply Qnot_le_lt. intros H. apply Qle_bool_iff in H. congruence. }
    rewrite E in Hlt.
    split; split; intros H; try discriminate H; try reflexivity; lra.
Qed.

Lemma diff_label_finite_witness :
  avg_ref_coverage [] = Return (Fin 0) /\
  avg_gen_coverage [Fin 10] = Return (Fin 10) /\
  exists d l, coverage_diff [] [Fin 10] = Return (Fin d, l) /\
              (d == 10 - 0)%Q /\
              (l = "denser"%string <-> (0 < 10)%Q) /\
              (l = "sparser"%string <-> (10 <= 0)%Q).
Proof.
  split; [reflexivity |]. split; [reflexivity |].
  apply (diff_label_finite [] [Fin 10] 0 10); reflexivity.
Defined.

End Comparison.

(** ** Properties of the quadrant means *)

Section QuadrantMeans.

Lemma comprehension_inr {A B} (f : A -> error + B) (l : list A) (bs : list B) :
  comprehension f l = inr bs -> Forall2 (fun a b => f a = inr b) l bs.
Proof.
  revert bs. induction l as [| a l IH]; intros bs H; cbn [comprehension] in H.
  - injection H as <-. constructor.
  - destruct (f a) as [e | b] eqn:Ha; [discriminate |].
    destruct (comprehension f l) as [e | bs'] eqn:Hl; [discriminate |].
    injection H as <-. constructor; [exact Ha | apply IH; reflexivity].
Qed.

Lemma comprehension_succeeds {A B} (f : A -> error + B) (l : list A) :
  Forall (fun a => exists b, f a = inr b) l ->
  exists bs, comprehension f l = inr bs.
Proof.
  induction 1 as [| a l (b & Hb) _ (bs & Hbs)]; cbn [comprehension].
  - eexists; reflexivity.
  - rewrite Hb, Hbs. eexists; reflexivity.
Qed.

Lemma comprehension_error {A B} (f : A -> error + B) (l : list A) (e : error) :
  comprehension f l = inl e -> exists a, a ∈ l /\ f a = inl e.
Proof.
  induction l as [| a l IH]; cbn [comprehension]; [discriminate |].
  destruct (f a) as [e' | b] eqn:Ha.
  - intros H. injection H as <-. exists a. split; [apply list_elem_of_here | exact Ha].
  - destruct (comprehension f l) as [e' | bs]; [| discriminate].
    intros H. injection H as <-. destruct (IH eq_refl) as (a' & Hin & Ha').
    exists a'. split; [apply list_elem_of_further, Hin | exact Ha'].
Qed.

(** The sum of a cell over the matrices, when every matrix has it. *)
Lemma sum_cell_present (mats : list (list (list number))) (r c : nat)
  (acc : number) :
  Forall (fun m => is_Some (cell m r c)) mats ->
  exists t, sum_cell mats r c acc = inr t.
Proof.
  intros Hall. revert acc.
  induction Hall as [| m mats [v Hv] _ IH]; intros acc; cbn [sum_cell].
  - eexists; reflexivity.
  - unfold cell in Hv. unfold item.
    destruct (m !! r) as [row |]; [| discriminate]. rewrite Hv. apply IH.
Qed.

(** A matrix without the cell makes the sum raise [IndexError]. *)
Lemma sum_cell_missing (mats : list (list (list number))) (r c : nat)
  (acc : number) (m : list (list number)) :
  m ∈ mats -> cell m r c = None -> sum_cell mats r c acc = inl IndexError.
Proof.
  intros Hin Hm. revert acc.
  induction mats as [| m0 mats IH]; intros acc; [inversion Hin |].
  cbn [sum_cell]. unfold item.
  destruct (m0 !! r) as [row |] eqn:Hr; [| reflexivity].
  destruct (row !! c) as [v |] eqn:Hc; [| reflexivity].
  apply elem_of_cons in Hin as [-> | Hin].
  - unfold cell in Hm. rewrite Hr, Hc in Hm. discriminate.
  - apply IH, Hin.
Qed.

Lemma sum_cell_only_IndexError (mats : list (list (list number))) (r c : nat)
  (acc : number) (e : error) :
  sum_cell mats r c acc = inl e -> e = IndexError.
Proof.
  revert acc. induction mats as [| m mats IH]; intros acc; cbn [sum_cell];
    [discriminate |].
  unfold item. destruct (m !! r) as [row |]; [| congruence].
  destruct (row !! c); [apply IH | congruence].
Qed.

Lemma mean_cell_only_IndexError (mats : list (list (list number))) (r c : nat)
  (e : error) :
  mats <> [] -> mean_cell mats r c = inl e -> e = IndexError.
Proof.
  intros Hne. unfold mean_cell, truediv.
  destruct (sum_cell mats r c (of_Z 0)) as [e' | t] eqn:Hs.
  - intros H. injection H as <-. exact (sum_cell_only_IndexError _ _ _ _ _ Hs).
  - destruct (Z.eqb_spec (Z.of_nat (length mats)) 0) as [H | _]; [| discriminate].
    destruct mats; [congruence | simpl in H; lia].
Qed.

Lemma mean_cell_present (mats : list (list (list number))) (r c : nat) :
  mats <> [] -> Forall (fun m => is_Some (cell m r c)) mats ->
  exists v, mean_cell mats r c = inr v.
Proof.
  intros Hne Hall. unfold mean_cell, truediv.
  destruct (sum_cell_present mats r c (of_Z 0) Hall) as (t & ->).
  destruct (Z.eqb_spec (Z.of_nat (length mats)) 0) as [H | _].
  - destruct mats; [congruence | simpl in H; lia].
  - eexists; reflexivity.
Qed.

(** A returned mean was computed from a cell of every matrix, at each
    place of the first matrix's rows and its first row's columns. *)
Lemma mean_grid_cells (mats : list (list (list number)))
  (g first : list (list number)) (row0 : list number)
  (m : list (list number)) (r c : nat) :
  mean_grid mats = inr g ->
  mats !! 0%nat = Some first -> first !! 0%nat = Some row0 ->
  m ∈ mats -> (r < length first)%nat -> (c < length row0)%nat ->
  is_Some (cell m r c).
Proof.
  unfold mean_grid, item. intros Hg Hf Hr0 Hin Hr Hc.
  rewrite Hf, Hr0 in Hg.
  pose proof (comprehension_inr _ _ _ Hg) as Hrows.
  destruct (lookup_lt_is_Some_2 g r) as [row Hrow].
  { rewrite <- (Forall2_length _ _ _ Hrows), length_seq. exact Hr. }
  destruct (Forall2_lookup_r _ _ _ _ _ Hrows Hrow) as (r' & Hr' & Hcomp).
  apply lookup_seq in Hr' as [-> _]. simpl in Hcomp.
  pose proof (comprehension_inr _ _ _ Hcomp) as Hcells.
  destruct (lookup_lt_is_Some_2 row c) as [v Hv].
  { rewrite <- (Forall2_length _ _ _ Hcells), length_seq. exact Hc. }
  destruct (Forall2_lookup_r _ _ _ _ _ Hcells Hv) as (c' & Hc' & Hcell).
  apply lookup_seq in Hc' as [-> _]. simpl in Hcell.
  destruct (cell m r c) as [x |] eqn:Hm; [eexists; reflexivity |].
  unfold mean_cell in Hcell.
  rewrite (sum_cell_missing mats r c (of_Z 0) m Hin Hm) in Hcell.
  discriminate.
Qed.

(** The rows and columns of a returned mean. *)
Lemma mean_grid_lengths (mats : list (list (list number)))
  (g first : list (list number)) (row0 : list number) :
  mean_grid mats = inr g ->
  mats !! 0%nat = Some first -> first !! 0%nat = Some row0 ->
  length g = length first /\ Forall (fun row => length row = length row0) g.
Proof.
  unfold mean_grid, item. intros Hg Hf Hr0. rewrite Hf, Hr0 in Hg.
  pose proof (comprehension_inr _ _ _ Hg) as Hrows. split.
  - rewrite <- (Forall2_length _ _ _ Hrows), length_seq. reflexivity.
  - apply Forall_forall. intros row Hin.
    apply list_elem_of_lookup in Hin as [i Hi].
    destruct (Forall2_lookup_r _ _ _ _ _ Hrows Hi) as (r & _ & Hrow).
    rewrite <- (Forall2_length _ _ _ (comprehension_inr _ _ _ Hrow)).
    apply length_seq.
Qed.

(** X19: when the mean of the quadrant matrices is returned, it has the
    rows of the first matrix and the columns of that matrix's first row,
    and every matrix has a cell at each of these places: further rows
    and columns of the other matrices are left out without a word. *)
Theorem mean_grid_has_first_shape (mats : list (list (list number)))
  (g : list (list number)) :
  mean_grid mats = inr g ->
  exists first row0,
    mats !! 0%nat = Some first /\ first !! 0%nat = Some row0 /\
    length g = length first /\
    Forall (fun row => length row = length row0) g /\
    (forall m r c, m ∈ mats -> (r < length first)%nat -> (c < length row0)%nat ->
       is_Some (cell m r c)).
Proof.
  intros Hg.
  assert (Hfirst : exists first row0,
            mats !! 0%nat = Some first /\ first !! 0%nat = Some row0).
  { revert Hg. unfold mean_grid, item.
    destruct (mats !! 0%nat) as [first |]; [| discriminate].
    destruct (first !! 0%nat) as [row0 |] eqn:Hr0; [| discriminate].
    intros _. exists first, row0. split; [reflexivity | exact Hr0]. }
  destruct Hfirst as (first & row0 & Hf & Hr0).
  exists first, row0. split; [exact Hf |]. split; [exact Hr0 |].
  destruct (mean_grid_lengths mats g first row0 Hg Hf Hr0) as [Hlen Hrows].
  split; [exact Hlen |]. split; [exact Hrows |].
  intros m r c Hin Hr Hc.
  exact (mean_grid_cells mats g first row0 m r c Hg Hf Hr0 Hin Hr Hc).
Qed.

Lemma mean_grid_has_first_shape_witness :
  mean_grid [[[Fin 10; Fin 20]]; [[Fin 30; Fin 40; Fin 50]; [Fin 60]]]
    = inr [[Fin 20; Fin 30]] /\
  exists first row0,
    [[[Fin 10; Fin 20]]; [[Fin 30; Fin 40; Fin 50]; [Fin 60]]] !! 0%nat
      = Some first /\
    first !! 0%nat = Some row0 /\
    length [[Fin 20; Fin 30]] = length first /\
    Forall (fun row => length row = length row0) [[Fin 20; Fin 30]] /\
    (forall m r c,
       m ∈ [[[Fin 10; Fin 20]]; [[Fin 30; Fin 40; Fin 50]; [Fin 60]]] ->
       (r < length first)%nat -> (c < length row0)%nat -> is_Some (cell m r c)).
Proof.
  split; [reflexivity |].
  apply (mean_grid_has_first_shape
           [[[Fin 10; Fin 20]]; [[Fin 30; Fin 40; Fin 50]; [Fin 60]]]
           [[Fin 20; Fin 30]]).
  reflexivity.
Defined.

(** X20: a matrix that lacks a cell inside the rows of the first matrix
    and the columns of its first row makes the mean of the quadrant
    matrices raise [IndexError]. *)
Theorem mean_grid_missing_cell (mats : list (list (list number)))
  (first : list (list number)) (row0 : list number)
  (m : list (list number)) (r c : nat) :
  mats !! 0%nat = Some first -> first !! 0%nat = Some row0 ->
  m ∈ mats -> (r < length first)%nat -> (c < length row0)%nat ->
  cell m r c = None ->
  mean_grid mats = inl IndexError.
Proof.
  intros Hf Hr0 Hin Hr Hc Hm.
  assert (Hne : mats <> []) by (intros ->; inversion Hin).
  destruct (mean_grid mats) as [e | g] eqn:Hg.
  - f_equal. revert Hg. unfold mean_grid, item. rewrite Hf, Hr0. intros Hg.
    destruct (comprehension_error _ _ _ Hg) as (r' & _ & Hrow).
    destruct (comprehension_error _ _ _ Hrow) as (c' & _ & Hcell).
    exact (mean_cell_only_IndexError _ _ _ _ Hne Hcell).
  - destruct (mean_grid_cells mats g first row0 m r c Hg Hf Hr0 Hin Hr Hc)
      as [x Hx].
    congruence.
Qed.

Lemma mean_grid_missing_cell_witness :
  [[[Fin 1; Fin 2]]; [[Fin 3]]] !! 0%nat = Some [[Fin 1; Fin 2]] /\
  [[Fin 1; Fin 2]] !! 0%nat = Some [Fin 1; Fin 2] /\
  cell [[Fin 3]] 0 1 = None /\
  mean_grid [[[Fin 1; Fin 2]]; [[Fin 3]]] = inl IndexError.
Proof.
  split; [reflexivity |]. split; [reflexivity |]. split; [reflexivity |].
  apply (mean_grid_missing_cell [[[Fin 1; Fin 2]]; [[Fin 3]]]
           [[Fin 1; Fin 2]] [Fin 1; Fin 2] [[Fin 3]] 0 1);
    try reflexivity; try (simpl; lia).
  apply list_elem_of_further, list_elem_of_here.
Defined.

Lemma well_shaped_cell {A} (m : list (list A)) (r c : nat) :
  well_shaped m -> (r < Z.to_nat qRows)%nat -> (c < Z.to_nat qCols)%nat ->
  is_Some (cell m r c).
Proof.
  intros Hm Hr Hc.
  destruct (well_shaped_lookup m (Z.of_nat r) (Z.of_nat c) Hm)
    as (row & x & Hrow & Hx); [lia | lia |].
  rewrite Nat2Z.id in Hrow, Hx. unfold cell. rewrite Hrow, Hx.
  eexists; reflexivity.
Qed.

(** Matrices of the quadrant grid's shape have a mean of that shape. *)
Lemma mean_grid_well_shaped (mats : list (list (list number))) :
  mats <> [] -> Forall well_shaped mats ->
  exists g, mean_grid mats = inr g /\ well_shaped g.
Proof.
  intros Hne Hall.
  assert (Hfirst : exists first, mats !! 0%nat = Some first /\ well_shaped first).
  { destruct mats as [| first rest]; [congruence |].
    exists first. split; [reflexivity | exact (Forall_inv Hall)]. }
  destruct Hfirst as (first & Hf & Hfs).
  destruct Hfs as [Hlen Hrows].
  destruct first as [| row0 first']; [simpl in Hlen; unfold qRows in Hlen; lia |].
  assert (Hr0 : length row0 = Z.to_nat qCols) by exact (Forall_inv Hrows).
  assert (Hok : exists g, mean_grid mats = inr g).
  { unfold mean_grid, item. rewrite Hf. cbn [lookup list_lookup].
    apply comprehension_succeeds, Forall_forall. intros r Hr.
    apply elem_of_seq in Hr.
    apply comprehension_succeeds, Forall_forall. intros c Hc.
    apply elem_of_seq in Hc.
    apply mean_cell_present; [exact Hne |].
    apply Forall_forall. intros m Hm.
    apply well_shaped_cell; [exact (proj1 (Forall_forall _ _) Hall m Hm) | lia | lia]. }
  destruct Hok as (g & Hg). exists g. split; [exact Hg |].
  destruct (mean_grid_lengths mats g (row0 :: first') row0 Hg Hf eq_refl)
    as [Hgl Hgr].
  split; [rewrite Hgl; exact Hlen |].
  eapply Forall_impl; [exact Hgr |]. intros row Hrow. simpl in *. lia.
Qed.

(** X21: for a non-empty run of analysed buffers, of whatever sizes, the
    reference quadrant mean is returned, without an exception, as a grid
    of [qRows] rows of [qCols] entries. *)
Theorem quadrant_mean_of_reports (bufs : list (Z * Z * list Z)) :
  bufs <> [] ->
  exists g,
    avg_ref_quadrants ((fun b => analyze_pixels b.1.1 b.1.2 b.2) <$> bufs)
      = inr (Some g) /\
    well_shaped g.
Proof.
  intros Hne. unfold avg_ref_quadrants.
  assert (Ht : truthy ((fun b => analyze_pixels b.1.1 b.1.2 b.2) <$> bufs) = true)
    by (destruct bufs; [congruence | reflexivity]).
  rewrite Ht.
  destruct (mean_grid_well_shaped
              (quadrantCoverage <$> ((fun b => analyze_pixels b.1.1 b.1.2 b.2)
                                       <$> bufs)))
    as (g & Hg & Hshape).
  - destruct bufs; [congruence | discriminate].
  - apply Forall_fmap, Forall_fmap, Forall_forall. intros [[w h] data] _.
    simpl. exact (quadrantPct_shape _ _ (scan_inv_all w h data)).
  - exists g. rewrite Hg. split; [reflexivity | exact Hshape].
Qed.

Lemma quadrant_mean_of_reports_witness :
  [(1, 1, [255; 255; 255; 255]); (0, 3, [])] <> [] /\
  exists g,
    avg_ref_quadrants ((fun b => analyze_pixels b.1.1 b.1.2 b.2)
                         <$> [(1, 1, [255; 255; 255; 255]); (0, 3, [])])
      = inr (Some g) /\
    well_shaped g.
Proof.
  split; [discriminate |].
  apply (quadrant_mean_of_reports [(1, 1, [255; 255; 255; 255]); (0, 3, [])]).
  discriminate.
Defined.

Local Open Scope Q_scope.

Lemma round_half_even_error (y : Q) :
  - (1 # 2) <= inject_Z (round_half_even y) - y <= 1 # 2.
Proof.
  unfold round_half_even.
  pose proof (Qfloor_le y) as Hlo. pose proof (Qlt_floor y) as Hhi.
  rewrite inject_Z_plus in Hhi. change (inject_Z 1) with 1 in Hhi.
  set (f := Qfloor y) in *.
  destruct (Qcompare (y - inject_Z f) (1 # 2)) eqn:Hc.
  - apply Qeq_alt in Hc. destruct (Z.even f).
    + lra.
    + rewrite inject_Z_plus. change (inject_Z 1) with 1. lra.
  - apply Qlt_alt in Hc. lra.
  - apply Qgt_alt in Hc. rewrite inject_Z_plus. change (inject_Z 1) with 1. lra.
Qed.

(** [round(x, d)] moves a number by at most half a unit of its last
    decimal. *)
Lemma roundQ_error (d : nat) (x : Q) :
  - half_ulp d <= roundQ d x - x <= half_ulp d.
Proof.
  unfold roundQ. rewrite Qred_correct, Qmake_pow10.
  pose proof (pow10_Q_pos d) as Hp.
  pose proof (round_half_even_error (x * inject_Z (10 ^ Z.of_nat d))) as He.
  unfold half_ulp.
  set (P := inject_Z (10 ^ Z.of_nat d)) in *.
  set (n := inject_Z (round_half_even (x * P))) in *.
  assert (Hnz : ~ P == 0) by lra.
  assert (E : n / P - x == (n - x * P) / P) by (field; exact Hnz).
  assert (E' : - ((1 # 2) / P) == (- (1 # 2)) / P) by (field; exact Hnz).
  rewrite E, E'. split.
  - apply Qle_shift_div_l; [exact Hp |].
    assert (E1 : - (1 # 2) / P * P == - (1 # 2)) by (field; exact Hnz).
    rewrite E1. lra.
  - apply Qle_shift_div_r; [exact Hp |].
    assert (E1 : (1 # 2) / P * P == 1 # 2) by (field; exact Hnz).
    rewrite E1. lra.
Qed.

Lemma sum_cell_finite (mats : list (list (list number))) (qs : list Q)
  (r c : nat) (acc : Q) :
  Forall2 (fun m q => cell m r c = Some (Fin q)) mats qs ->
  exists t, sum_cell mats r c (Fin acc) = inr (Fin t) /\ t == acc + sumQ qs.
Proof.
  intros Hall. revert acc.
  induction Hall as [| m q mats qs Hm _ IH]; intros acc.
  - exists acc. split; [reflexivity |]. unfold sumQ; simpl. ring.
  - cbn [sum_cell]. unfold item. unfold cell in Hm.
    destruct (m !! r) as [row |]; [| discriminate]. rewrite Hm. cbn [add].
    destruct (IH (Qred (acc + q))) as (t & Ht & Et).
    exists t. split; [exact Ht |].
    rewrite Et, Qred_correct. unfold sumQ; simpl. ring.
Qed.

(** X22: where all the matrices hold a finite percentage, the entry of
    the quadrant mean is within 0.05 of the exact mean of these
    percentages. *)
Theorem mean_cell_accuracy (mats : list (list (list number))) (qs : list Q)
  (r c : nat) :
  mats <> [] ->
  Forall2 (fun m q => cell m r c = Some (Fin q)) mats qs ->
  exists a, mean_cell mats r c = inr (Fin a) /\
            Qabs (a - sumQ qs / inject_Z (Z.of_nat (length qs))) <= 1 # 20.
Proof.
  intros Hne Hall. unfold mean_cell, truediv.
  destruct (sum_cell_finite mats qs r c 0 Hall) as (t & Ht & Et).
  change (of_Z 0) with (Fin 0). rewrite Ht.
  assert (Hn : Z.of_nat (length mats) <> 0%Z).
  { destruct mats; [congruence | simpl; lia]. }
  destruct (Z.eqb_spec (Z.of_nat (length mats)) 0) as [H | _]; [lia |].
  unfold of_Z, div. rewrite (Qzero_inject_Z _ Hn). cbn [py_round].
  eexists; split; [reflexivity |].
  rewrite <- (Forall2_length _ _ _ Hall).
  pose proof (roundQ_error 1 (Qred (t / inject_Z (Z.of_nat (length mats)))))
    as Herr.
  pose proof (Qred_correct (t / inject_Z (Z.of_nat (length mats)))) as Er.
  assert (HN : ~ inject_Z (Z.of_nat (length mats)) == 0).
  { intros H. unfold Qeq in H. simpl in H. lia. }
  set (N := inject_Z (Z.of_nat (length mats))) in *.
  assert (Em : t / N == sumQ qs / N) by (rewrite Et; field; exact HN).
  set (x := Qred (t / N)) in *. set (a := roundQ 1 x) in *.
  rewrite half_ulp_1 in Herr. apply Qabs_Qle_condition.
  set (u := t / N) in *. set (v := sumQ qs / N) in *. lra.
Qed.

Lemma mean_cell_accuracy_witness :
  [[[Fin (1 # 10)]]; [[Fin (2 # 10)]]] <> [] /\
  exists a, mean_cell [[[Fin (1 # 10)]]; [[Fin (2 # 10)]]] 0 0 = inr (Fin a) /\
            Qabs (a - sumQ [1 # 10; 2 # 10] / inject_Z (Z.of_nat 2)) <= 1 # 20.
Proof.
  split; [discriminate |].
  apply (mean_cell_accuracy [[[Fin (1 # 10)]]; [[Fin (2 # 10)]]]
           [1 # 10; 2 # 10] 0 0); [discriminate |].
  repeat constructor.
Defined.

End QuadrantMeans.

(** ** The names of the screenshots *)

Section Screenshots.

Lemma length_replace_spaces (text : string) :
  String.length (replace_spaces text) = String.length text.
Proof.
  induction text as [| a text IH]; [reflexivity |]. simpl. rewrite IH. reflexivity.
Qed.

Lemma length_prefix (n : nat) (s : string) :
  String.length (substring 0 n s) = Nat.min n (String.length s).
Proof.
  revert n. induction s as [| a s IH]; intros [| n]; try reflexivity.
  simpl. rewrite IH. reflexivity.
Qed.

Lemma replace_spaces_no_space (text : string) :
  ~ In " "%char (list_ascii_of_string (replace_spaces text)).
Proof.
  induction text as [| a text IH]; simpl; [tauto |].
  intros [H | H]; [| exact (IH H)].
  unfold underscore in H. destruct (Ascii.eqb_spec a " "%char) as [-> | Hne].
  - discriminate H.
  - congruence.
Qed.

Lemma prefix_chars (n : nat) (s : string) (a : ascii) :
  In a (list_ascii_of_string (substring 0 n s)) ->
  In a (list_ascii_of_string s).
Proof.
  revert n. induction s as [| b s IH]; intros [| n]; simpl; try tauto.
  intros [H | H]; [left; exact H | right; exact (IH n H)].
Qed.

Lemma prefix_prefix (n : nat) (s : string) :
  substring 0 n (substring 0 n s) = substring 0 n s.
Proof.
  revert n. induction s as [| a s IH]; intros [| n]; try reflexivity.
  simpl. rewrite IH. reflexivity.
Qed.

Lemma replace_spaces_prefix (n : nat) (s : string) :
  replace_spaces (substring 0 n s) = substring 0 n (replace_spaces s).
Proof.
  revert n. induction s as [| a s IH]; intros [| n]; try reflexivity.
  simpl. rewrite IH. reflexivity.
Qed.

(** X23: the name of a screenshot holds no space and has the length of
    the text, capped at 20 characters; it depends on the first 20
    characters of the text only, and not on whether a character is a
    space or an underscore, so texts that agree that far share a name. *)
Theorem png_stem_properties (text : string) :
  String.length (png_stem text) = Nat.min 20 (String.length text) /\
  ~ In " "%char (list_ascii_of_string (png_stem text)) /\
  png_stem (replace_spaces text) = png_stem text /\
  png_stem (substring 0 20 text) = png_stem text.
Proof.
  unfold png_stem. split; [| split; [| split]].
  - rewrite length_prefix, length_replace_spaces. reflexivity.
  - intros H. apply prefix_chars in H. exact (replace_spaces_no_space _ H).
  - f_equal. induction text as [| a text IH]; [reflexivity |].
    simpl. rewrite IH. f_equal. unfold underscore.
    destruct (Ascii.eqb_spec a " "%char) as [-> | Hne]; [reflexivity |].
    destruct (Ascii.eqb_spec a " "%char); [contradiction | reflexivity].
  - rewrite replace_spaces_prefix. apply prefix_prefix.
Qed.

End Screenshots.

(** ** The page function on images of zero and of positive size *)

Section PageFunction.

(** For an image of positive size the page function returns the report
    of the scan, computed from four channels per pixel. *)
Lemma analyze_loaded_image (img : Image) :
  0 < img_width img -> 0 < img_height img ->
  exists data,
    getImageData img (img_width img) (img_height img) = Normal data /\
    Z.of_nat (length data) = 4 * img_width img * img_height img /\
    analyze (Some img)
      = Normal (analyze_pixels (img_width img) (img_height img) data).
Proof.
  intros Hw Hh. unfold analyze, getImageData.
  destruct (Z.eqb_spec (img_width img) 0) as [H | _]; [lia |].
  destruct (Z.eqb_spec (img_height img) 0) as [H | _]; [lia |].
  cbn [orb]. eexists. split; [reflexivity |]. split; [| reflexivity].
  set (w := img_width img) in *. set (h := img_height img) in *.
  assert (Hrow : forall (l : list Z) y,
            length (concat ((fun x => channels (pixel img x y)) <$> l))
            = (4 * length l)%nat).
  { intros l y. induction l as [| x l IH]; [reflexivity |].
    cbn [fmap list_fmap concat]. rewrite length_app, IH.
    unfold channels. destruct (pixel img x y) as [[[r g] b] a]. simpl. lia. }
  assert (Hall : forall (l : list Z),
            length (concat ((fun y =>
                      concat ((fun x => channels (pixel img x y)) <$> seqZ 0 w))
                    <$> l))
            = (4 * Z.to_nat w * length l)%nat).
  { intros l. induction l as [| y l IH]; [simpl; lia |].
    cbn [fmap list_fmap concat]. rewrite length_app, IH, Hrow, length_seqZ.
    simpl length. lia. }
  rewrite Hall, length_seqZ. lia.
Qed.



End PageFunction.

(** ** The weighted average of the quadrant percentages *)

Section WeightedAverage.

(** When the grid fits in the buffer, every cell holds a pixel. *)
Lemma scan_cells_positive (w h : Z) (data : list Z) :
  qCols <= w -> qRows <= h ->
  Forall2 (Forall2 (fun v t => 0 <= v <= t /\ 0 < t))
    (quadrants (scan w h data)) (quadrantTotals (scan w h data)).
Proof.
  intros Hw Hh.
  pose proof (scan_inv_all w h data) as [[Hlen Hrows] Hcells _ _].
  apply Forall2_same_length_lookup_2; [exact (Forall2_length _ _ _ Hcells) |].
  intros r vrow trow Hv Ht.
  pose proof (Forall2_lookup_lr _ _ _ _ _ _ Hcells Hv Ht) as Hrow.
  apply Forall2_same_length_lookup_2; [exact (Forall2_length _ _ _ Hrow) |].
  intros c v t Hvc Htc.
  split; [exact (Forall2_lookup_lr _ _ _ _ _ _ Hrow Hvc Htc) |].
  assert (Hr : (r < Z.to_nat qRows)%nat).
  { rewrite <- Hlen. exact (lookup_lt_Some _ _ _ Ht). }
  assert (Hc : (c < Z.to_nat qCols)%nat).
  { rewrite <- (Forall_lookup_1 _ _ _ _ Hrows Ht).
    exact (lookup_lt_Some _ _ _ Htc). }
  destruct (quadrant_index_onto h qRows (Z.of_nat r)) as (y0 & Hy0 & Ey);
    [unfold qRows in *; lia | lia |].
  destruct (quadrant_index_onto w qCols (Z.of_nat c)) as (x0 & Hx0 & Ex);
    [unfold qCols in *; lia | lia |].
  pose proof (scan_own_cell w h data x0 y0 Hx0 Hy0) as (t' & Ht' & Hpos).
  rewrite Ey, Ex, !Nat2Z.id in Ht'. unfold cell in Ht'.
  rewrite Ht, Htc in Ht'. injection Ht' as <-. lia.
Qed.

Local Open Scope Q_scope.

(** The weighted percentage of a cell that holds pixels is within a
    twentieth per pixel of a hundred times its white count. *)
Lemma weighted_cell (v t : Z) :
  (0 <= v <= t)%Z -> (0 < t)%Z ->
  exists a, mul (of_Z t) (pct_of v t) = Fin a /\
            - (inject_Z t * (1 # 20)) <= a - 100 * inject_Z v
              <= inject_Z t * (1 # 20).
Proof.
  intros Hv Ht.
  destruct (percentage_finite 1 v t) as (p & Hp & Herr); [lia |].
  unfold pct_of. rewrite Hp. unfold of_Z. cbn [mul].
  eexists; split; [reflexivity |]. rewrite Qred_correct.
  rewrite half_ulp_1 in Herr. apply Qabs_Qle_condition in Herr.
  assert (HT : 0 < inject_Z t) by (rewrite <- (Zlt_Qlt 0); lia).
  set (T := inject_Z t) in *. set (V := inject_Z v) in *.
  assert (E : T * p - 100 * V == T * (p - 100 * V / T)) by (field; lra).
  rewrite E. destruct Herr as [Hlo Hhi]. split.
  - assert (E' : - (T * (1 # 20)) == T * - (1 # 20)) by ring.
    rewrite E'. apply Qmult_le_l; assumption.
  - apply Qmult_le_l; assumption.
Qed.

Lemma weighted_sum_row (vs ts : list Z) :
  Forall2 (fun v t => (0 <= v <= t)%Z /\ (0 < t)%Z) vs ts ->
  exists a, weighted_sum ts (zip_with pct_of vs ts) = Fin a /\
            - (inject_Z (sumZ ts) * (1 # 20))
              <= a - 100 * inject_Z (sumZ vs)
              <= inject_Z (sumZ ts) * (1 # 20).
Proof.
  induction 1 as [| v t vs ts [Hv Ht] _ (b & Hb & Hbb)].
  - exists 0. split; [reflexivity |]. split; vm_compute; discriminate.
  - destruct (weighted_cell v t Hv Ht) as (a & Ha & Hab).
    cbn [zip_with weighted_sum]. rewrite Ha, Hb. cbn [add].
    eexists; split; [reflexivity |].
    rewrite Qred_correct, !sumZ_cons, !inject_Z_plus. lra.
Qed.

Lemma add_finite (x y : number) (a : Q) :
  add x y = Fin a -> exists p q, x = Fin p /\ y = Fin q /\ a == p + q.
Proof.
  destruct x as [p | | s], y as [q | | t]; cbn [add]; try discriminate.
  - intros H. injection H as <-. exists p, q.
    split; [reflexivity |]. split; [reflexivity | apply Qred_correct].
  - destruct (Bool.eqb s t); discriminate.
Qed.

Lemma weighted_sum_app (ts1 ts2 : list Z) (ps1 ps2 : list number) (a b : Q) :
  length ts1 = length ps1 ->
  weighted_sum ts1 ps1 = Fin a -> weighted_sum ts2 ps2 = Fin b ->
  exists c, weighted_sum (ts1 ++ ts2) (ps1 ++ ps2) = Fin c /\ c == a + b.
Proof.
  revert ps1 a. induction ts1 as [| t ts1 IH]; intros [| p ps1] a Hlen Ha Hb;
    try discriminate Hlen.
  - simpl in Ha. injection Ha as <-. exists b. split; [exact Hb | ring].
  - cbn [weighted_sum] in Ha.
    destruct (add_finite _ _ _ Ha) as (x & y & Hx & Hy & Exy).
    injection Hlen as Hlen.
    destruct (IH ps1 y Hlen Hy Hb) as (c & Hc & Ec).
    cbn [app weighted_sum]. rewrite Hx, Hc. cbn [add].
    eexists; split; [reflexivity |].
    rewrite Qred_correct, Ec, Exy. ring.
Qed.

Lemma weighted_sum_grid (q t : list (list Z)) :
  Forall2 (Forall2 (fun v t => (0 <= v <= t)%Z /\ (0 < t)%Z)) q t ->
  exists a, weighted_sum (concat t) (concat (zip_with (zip_with pct_of) q t))
              = Fin a /\
            - (inject_Z (grid_sum t) * (1 # 20))
              <= a - 100 * inject_Z (grid_sum q)
              <= inject_Z (grid_sum t) * (1 # 20).
Proof.
  induction 1 as [| vs ts q t Hrow _ (b & Hb & Hbb)].
  - exists 0. split; [reflexivity |]. split; vm_compute; discriminate.
  - destruct (weighted_sum_row vs ts Hrow) as (a & Ha & Hab).
    cbn [zip_with concat].
    destruct (weighted_sum_app ts (concat t) (zip_with pct_of vs ts)
                (concat (zip_with (zip_with pct_of) q t)) a b)
      as (c & Hc & Ec); [| exact Ha | exact Hb |].
    { rewrite length_zip_with_r_eq; [reflexivity |].
      symmetry. exact (Forall2_length _ _ _ Hrow). }
    exists c. split; [exact Hc |].
    rewrite !grid_sum_cons, !inject_Z_plus, Ec. lra.
Qed.

(** C3 (as the code has it): for a buffer at least as wide and as high
    as the 2 x 4 grid (width >= 4, height >= 2: the buffers in which
    every cell holds a pixel), the average of the reported quadrant
    percentages, each weighted by the number of pixels of its cell, is a
    number within 0.05 + 0.005 of the reported [coveragePct]: the two
    rounding steps, to one decimal per cell and to two decimals
    overall. *)
Theorem weighted_quadrants_match_coverage (w h : Z) (data : list Z) :
  (qCols <= w)%Z -> (qRows <= h)%Z ->
  exists a c,
    weighted_avg (quadrantTotals (scan w h data))
                 (quadrantCoverage (analyze_pixels w h data)) = Fin a /\
    coveragePct (analyze_pixels w h data) = Fin c /\
    Qabs (a - c) <= 11 # 200.
Proof.
  intros Hw Hh.
  pose proof (scan_inv_all w h data) as Hinv.
  pose proof Hinv as [_ _ Htot Hwhite].
  destruct (weighted_sum_grid _ _ (scan_cells_positive w h data Hw Hh))
    as (S & HS & [Hlo Hhi]).
  assert (Hpos : (0 < w * h)%Z) by (unfold qCols, qRows in *; nia).
  assert (Hn : (Z.max 0 h * Z.max 0 w = w * h)%Z) by (unfold qCols, qRows in *; lia).
  destruct (percentage_finite 2 (whiteTotal (scan w h data)) (w * h))
    as (c & Hc & Herr); [lia |].
  unfold weighted_avg. cbn [analyze_pixels quadrantCoverage coveragePct].
  rewrite (quadrantPct_zip _ _ Hinv), HS, Hc, Htot, Hn.
  unfold of_Z, div. rewrite (Qzero_inject_Z (w * h)) by lia.
  eexists; eexists; split; [reflexivity |]. split; [reflexivity |].
  rewrite Htot, Hn in *. rewrite Hwhite in *.
  rewrite half_ulp_2 in Herr. apply Qabs_Qle_condition in Herr.
  assert (HT : 0 < inject_Z (w * h)) by (rewrite <- (Zlt_Qlt 0); exact Hpos).
  pose proof (Qred_correct (S / inject_Z (w * h))) as Er.
  set (T := inject_Z (w * h)) in *.
  set (W := inject_Z (whiteTotal (scan w h data))) in *.
  assert (Hmid : - (1 # 20) <= S / T - 100 * W / T <= 1 # 20).
  { assert (E : S / T - 100 * W / T == (S - 100 * W) / T) by (field; lra).
    rewrite E. split.
    - apply Qle_shift_div_l; [exact HT | lra].
    - apply Qle_shift_div_r; [exact HT | lra]. }
  apply Qabs_Qle_condition.
  set (X := 100 * W / T) in *. set (A := S / T) in *.
  set (R := Qred A) in *.
  destruct Herr, Hmid. split; lra.
Qed.

Lemma weighted_quadrants_match_coverage_witness :
  (qCols <= 5)%Z /\ (qRows <= 3)%Z /\
  exists a c,
    weighted_avg
      (quadrantTotals (scan 5 3
         [255; 255; 255; 255;  0; 0; 0; 255;  200; 100; 90; 0;
          129; 128; 128; 0;  1; 2; 3; 4;
          255; 255; 255; 255;  0; 0; 0; 255;  128; 128; 128; 0;
          129; 128; 128; 0;  1; 2; 3; 4;
          255; 255; 255; 255;  0; 0; 0; 255;  128; 128; 128; 0;
          129; 128; 128; 0;  255; 255; 255; 4]%Z))
      (quadrantCoverage (analyze_pixels 5 3
         [255; 255; 255; 255;  0; 0; 0; 255;  200; 100; 90; 0;
          129; 128; 128; 0;  1; 2; 3; 4;
          255; 255; 255; 255;  0; 0; 0; 255;  128; 128; 128; 0;
          129; 128; 128; 0;  1; 2; 3; 4;
          255; 255; 255; 255;  0; 0; 0; 255;  128; 128; 128; 0;
          129; 128; 128; 0;  255; 255; 255; 4]%Z)) = Fin a /\
    coveragePct (analyze_pixels 5 3
         [255; 255; 255; 255;  0; 0; 0; 255;  200; 100; 90; 0;
          129; 128; 128; 0;  1; 2; 3; 4;
          255; 255; 255; 255;  0; 0; 0; 255;  128; 128; 128; 0;
          129; 128; 128; 0;  1; 2; 3; 4;
          255; 255; 255; 255;  0; 0; 0; 255;  128; 128; 128; 0;
          129; 128; 128; 0;  255; 255; 255; 4]%Z) = Fin c /\
    Qabs (a - c) <= 11 # 200.
Proof.
  split; [unfold qCols; lia |]. split; [unfold qRows; lia |].
  apply weighted_quadrants_match_coverage; [unfold qCols | unfold qRows]; lia.
Defined.

(** C3, as stated, fails on a 1 x 1 white buffer: seven of the eight
    cells hold no pixel and report NaN, so the weighted average of the
    reported percentages is NaN, while [coveragePct] is 100. *)
Lemma weighted_average_of_small_buffer :
  (0 < 1)%Z /\
  quadrantCoverage (analyze_pixels 1 1 [255; 255; 255; 255]%Z)
    = [[Fin 100; NaN; NaN; NaN]; [NaN; NaN; NaN; NaN]] /\
  weighted_avg (quadrantTotals (scan 1 1 [255; 255; 255; 255]%Z))
               (quadrantCoverage (analyze_pixels 1 1 [255; 255; 255; 255]%Z))
    = NaN /\
  coveragePct (analyze_pixels 1 1 [255; 255; 255; 255]%Z) = Fin 100.
Proof.
  split; [lia |]. split; [reflexivity |]. split; reflexivity.
Qed.

End WeightedAverage.
